(** * npdl.optimizers: a shallow embedding of the parameter-update engine

    The development follows [src/npdl/optimizers.py].  Python objects live in
    a store; the optimizer methods are computations in a small state and
    exception monad over that store.

    - A numpy array is a one-dimensional list of scalars.  The scalar type is
      a parameter ([Scalar]); it is instantiated with the real numbers (exact
      arithmetic, for the algebraic properties) and with binary64 floats (to
      run the code on concrete inputs as numpy would).
    - Elementwise operations follow numpy's broadcasting rule in one
      dimension: equal lengths combine pointwise, a length-one operand is
      stretched, anything else raises [ValueError].  An in-place operator
      ([+=], [-=]) additionally keeps the shape of its left operand.
    - Arrays and optimizer instances are referred to by location, so that
      aliasing, in-place mutation ([c += ...]) and rebinding of a local name
      ([v = ...]) are told apart as Python tells them apart. *)

From Stdlib Require Uint63.
From Stdlib Require Import PrimFloat.
From Stdlib Require Import ZArith Reals Lra Ascii String.
From stdpp Require Import base decidable option list strings.

Set Warnings "-inexact-float".

(** ** Scalars *)

Class Scalar (F : Type) := {
  of_Z : Z -> F;
  fadd : F -> F -> F;
  fsub : F -> F -> F;
  fmul : F -> F -> F;
  fdiv : F -> F -> F;
  fopp : F -> F;
  fsqrt : F -> F;
  fminimum : F -> F -> F;
  fmaximum : F -> F -> F;
  fpositive : F -> bool          (* [x > 0] *)
}.

#[global] Instance Rlt_decision (x y : R) : Decision (x < y)%R := Rlt_dec x y.

(** Exact arithmetic.  It is what numpy computes up to rounding wherever
    numpy's result is finite; [sqrt] of a negative real and division by
    zero are total here (numpy yields nan or inf), and the statements below
    that involve them keep to non-negative accumulators and positive
    divisors. *)

#[global] Instance R_scalar : Scalar R := {|
  of_Z := IZR;
  fadd := Rplus;
  fsub := Rminus;
  fmul := Rmult;
  fdiv := Rdiv;
  fopp := Ropp;
  fsqrt := sqrt;
  fminimum := Rmin;
  fmaximum := Rmax;
  fpositive := fun x => bool_decide (0 < x)%R
|}.

Module Binary64.

Definition of_Z (z : Z) : PrimFloat.float :=
  match z with
  | Z0 => PrimFloat.zero
  | Zpos _ => PrimFloat.of_uint63 (Uint63.of_Z z)
  | Zneg p => PrimFloat.opp (PrimFloat.of_uint63 (Uint63.of_Z (Zpos p)))
  end.

(* np.minimum and np.maximum hand a NaN operand on. *)
Definition minimum (x y : PrimFloat.float) : PrimFloat.float :=
  if PrimFloat.is_nan x then x
  else if PrimFloat.is_nan y then y
  else if PrimFloat.ltb y x then y else x.

Definition maximum (x y : PrimFloat.float) : PrimFloat.float :=
  if PrimFloat.is_nan x then x
  else if PrimFloat.is_nan y then y
  else if PrimFloat.ltb x y then y else x.

End Binary64.

#[global] Instance float_scalar : Scalar PrimFloat.float := {|
  of_Z := Binary64.of_Z;
  fadd := PrimFloat.add;
  fsub := PrimFloat.sub;
  fmul := PrimFloat.mul;
  fdiv := PrimFloat.div;
  fopp := PrimFloat.opp;
  fsqrt := PrimFloat.sqrt;
  fminimum := Binary64.minimum;
  fmaximum := Binary64.maximum;
  fpositive := fun x => PrimFloat.ltb PrimFloat.zero x
|}.

(** ** Exceptions and Python values *)

Inductive exn :=
  | NotImplementedError
  | ValueError (msg : string).

(** The result of a call.  [Fault] is the model's own: a location that
    refers to nothing, which no Python execution produces. *)
Inductive outcome (A : Type) :=
  | Return (a : A)
  | Raise (e : exn)
  | Fault.
Arguments Return {A} a.
Arguments Raise {A} e.
Arguments Fault {A}.

(** A location in the store. *)
Abbreviation loc := nat (only parsing).

(** What a caller may hand to [get]: a [str], an object of one of the
    optimizer classes, or an object of any other class (by class name). *)
Inductive pyvalue :=
  | PyStr (s : string)
  | PyOptimizer (l : loc)
  | PyOther (class_name : string).

(** ** Arrays

    A numpy array of floats, in one dimension. *)
Abbreviation ndarray F := (list F) (only parsing).

Section Model.

Context {F : Type} `{Scalar F}.

(** Modelled from the spec: [_zero] of [npdl.initializations] is not part
    of the sources at hand; the specification describes the auxiliary
    arrays as zero-filled arrays shaped like the array they track. *)
Definition _zero (shape : nat) : ndarray F := replicate shape (of_Z 0).

Definition shape (a : ndarray F) : nat := length a.

(** [a op b] for two arrays. *)
Definition broadcast (op : F -> F -> F) (a b : ndarray F) : option (ndarray F) :=
  if decide (length a = length b) then Some (zip_with op a b)
  else match a, b with
       | [x], _ => Some (map (op x) b)
       | _, [y] => Some (map (fun x => op x y) a)
       | _, _ => None
       end.

(** [a op= b]: the result has to fit into [a]. *)
Definition inplace (op : F -> F -> F) (a b : ndarray F) : option (ndarray F) :=
  if decide (length a = length b) then Some (zip_with op a b)
  else match b with
       | [y] => Some (map (fun x => op x y) a)
       | _ => None
       end.

(** [k * a] for a Python float [k]. *)
Definition scale (k : F) (a : ndarray F) : ndarray F := map (fmul k) a.

(** [a + k] for a Python float [k]. *)
Definition shift (a : ndarray F) (k : F) : ndarray F := map (fun x => fadd x k) a.

(** [np.power(a, 2)] *)
Definition np_power2 (a : ndarray F) : ndarray F := map (fun x => fmul x x) a.

(** [np.sqrt(a)] *)
Definition np_sqrt (a : ndarray F) : ndarray F := map fsqrt a.

(** [np.clip(a, lo, hi)], that is [minimum(maximum(a, lo), hi)]. *)
Definition np_clip (a : ndarray F) (lo hi : F) : ndarray F :=
  map (fun x => fminimum (fmaximum x lo) hi) a.

Definition npdl_clip (grad : ndarray F) (boundary : F) : ndarray F :=
  if fpositive boundary then np_clip grad (fopp boundary) boundary
  else grad.

(** ** Optimizer instances

    One constructor per class, carrying the attributes the class's
    [__init__] chain assigns, in the order of the constructor's
    parameters.  [velocity] and [cache] are [None] or a Python list of
    arrays. *)
Inductive optimizer :=
  | Optimizer (lr clip : F)
  | SGD (lr clip : F)
  | Momentum (momentum lr clip : F) (velocity : option (list loc))
  | NesterovMomentum (momentum lr clip : F) (velocity : option (list loc))
  | Adagrad (epsilon lr clip : F) (cache : option (list loc))
  | RMSprop (lr clip : F)
  | Adadelta (lr clip : F)
  | Adam (lr clip : F)
  | Adamax (lr clip : F).

(** The arrays an instance owns (its AuxiliaryState). *)
Definition aux_arrays (o : optimizer) : list loc :=
  match o with
  | Momentum _ _ _ (Some vs) | NesterovMomentum _ _ _ (Some vs) => vs
  | Adagrad _ _ _ (Some cs) => cs
  | _ => []
  end.

(** Default arguments: [lr=0.001], [clip=-1], [momentum=0.9],
    [epsilon=1e-6]. *)
Definition default_lr : F := fdiv (of_Z 1) (of_Z 1000).
Definition default_clip : F := of_Z (-1).
Definition default_momentum : F := fdiv (of_Z 9) (of_Z 10).
Definition default_epsilon : F := fdiv (of_Z 1) (of_Z 1000000).

(** ** The store and the monad *)

Record state := State {
  arrays : list (ndarray F);
  objects : list optimizer
}.

Definition M (A : Type) : Type := state -> outcome A * state.

Definition ret {A} (a : A) : M A := fun s => (Return a, s).

Definition bind {A B} (m : M A) (k : A -> M B) : M B :=
  fun s =>
    match m s with
    | (Return a, s') => k a s'
    | (Raise e, s') => (Raise e, s')
    | (Fault, s') => (Fault, s')
    end.

Definition raise {A} (e : exn) : M A := fun s => (Raise e, s).

Definition fault {A} : M A := fun s => (Fault, s).

Notation "x <- m ;; k" := (bind m (fun x => k))
  (at level 100, m at next level, k at level 200, right associativity).
Notation "m ;; k" := (bind m (fun _ => k))
  (at level 100, k at level 200, right associativity).

(** Reading an array, writing it in place, creating one. *)
Definition load (l : loc) : M (ndarray F) :=
  fun s =>
    match arrays s !! l with
    | Some a => (Return a, s)
    | None => (Fault, s)
    end.

Definition store (l : loc) (a : ndarray F) : M unit :=
  fun s =>
    if decide (l < length (arrays s))
    then (Return tt, State (<[l := a]> (arrays s)) (objects s))
    else (Fault, s).

Definition alloc (a : ndarray F) : M loc :=
  fun s => (Return (length (arrays s)), State (arrays s ++ [a]) (objects s)).

(** Reading an instance, assigning one of its attributes, creating one. *)
Definition get_object (l : loc) : M optimizer :=
  fun s =>
    match objects s !! l with
    | Some o => (Return o, s)
    | None => (Fault, s)
    end.

Definition set_object (l : loc) (o : optimizer) : M unit :=
  fun s =>
    if decide (l < length (objects s))
    then (Return tt, State (arrays s) (<[l := o]> (objects s)))
    else (Fault, s).

Definition new_object (o : optimizer) : M loc :=
  fun s => (Return (length (objects s)), State (arrays s) (objects s ++ [o])).

(** The result of a numpy operation, or numpy's exception. *)
Definition numpy (r : option (ndarray F)) : M (ndarray F) :=
  match r with
  | Some a => ret a
  | None => raise (ValueError "operands could not be broadcast together")
  end.

(** [for x in xs: body] *)
Fixpoint for_each {A} (xs : list A) (body : A -> M unit) : M unit :=
  match xs with
  | [] => ret tt
  | x :: xs' => body x ;; for_each xs' body
  end.

(** [[_zero(x.shape) for x in xs]] *)
Fixpoint zeros_like (xs : list loc) : M (list loc) :=
  match xs with
  | [] => ret []
  | x :: xs' =>
      a <- load x ;;
      z <- alloc (_zero (shape a)) ;;
      zs <- zeros_like xs' ;;
      ret (z :: zs)
  end.

(** ** The update methods

    No method assigns [self.lr], [self.clip], [self.momentum] or
    [self.epsilon], so each reads them once on entry.  Every statement of
    a loop body reads the arrays it names when it runs. *)

Definition Optimizer_update (self : loc) (params grads : list loc) : M unit :=
  raise NotImplementedError.

Definition SGD_update (self : loc) (params grads : list loc) : M unit :=
  o <- get_object self ;;
  match o with
  | SGD lr clip =>
      for_each (zip params grads) (fun '(p, g) =>
        (* p -= self.lr * npdl_clip(g, self.clip) *)
        gv <- load g ;;
        pv <- load p ;;
        pv' <- numpy (inplace fsub pv (scale lr (npdl_clip gv clip))) ;;
        store p pv')
  | _ => fault
  end.

Definition Momentum_update (self : loc) (params grads : list loc) : M unit :=
  o <- get_object self ;;
  match o with
  | Momentum momentum lr clip velocity =>
      (* init the velocities *)
      velocity <- match velocity with
                  | None =>
                      vs <- zeros_like params ;;
                      set_object self (Momentum momentum lr clip (Some vs)) ;;
                      ret vs
                  | Some vs => ret vs
                  end ;;
      (* update the parameters *)
      for_each (zip velocity (zip params grads)) (fun '(v, (p, g)) =>
        (* v = self.momentum * v - self.lr * g   binds the local name [v] *)
        vv <- load v ;;
        gv <- load g ;;
        v' <- numpy (broadcast fsub (scale momentum vv) (scale lr gv)) ;;
        (* p += v *)
        pv <- load p ;;
        pv' <- numpy (inplace fadd pv v') ;;
        store p pv')
  | _ => fault
  end.

Definition NesterovMomentum_update (self : loc) (params grads : list loc)
  : M unit :=
  o <- get_object self ;;
  match o with
  | NesterovMomentum momentum lr clip velocity =>
      (* init the velocities *)
      velocity <- match velocity with
                  | None =>
                      vs <- zeros_like params ;;
                      set_object self
                        (NesterovMomentum momentum lr clip (Some vs)) ;;
                      ret vs
                  | Some vs => ret vs
                  end ;;
      (* update the parameters *)
      for_each (zip velocity (zip params grads)) (fun '(v, (p, g)) =>
        (* v = self.momentum * v - self.lr * g   binds the local name [v] *)
        vv <- load v ;;
        gv <- load g ;;
        v' <- numpy (broadcast fsub (scale momentum vv) (scale lr gv)) ;;
        (* p += (self.momentum * v - self.lr * g) *)
        gv <- load g ;;
        d <- numpy (broadcast fsub (scale momentum v') (scale lr gv)) ;;
        pv <- load p ;;
        pv' <- numpy (inplace fadd pv d) ;;
        store p pv')
  | _ => fault
  end.

Definition Adagrad_update (self : loc) (params grads : list loc) : M unit :=
  o <- get_object self ;;
  match o with
  | Adagrad epsilon lr clip cache =>
      (* init cache *)
      cache <- match cache with
               | None =>
                   cs <- zeros_like grads ;;
                   set_object self (Adagrad epsilon lr clip (Some cs)) ;;
                   ret cs
               | Some cs => ret cs
               end ;;
      (* update parameters *)
      for_each (zip cache (zip params grads)) (fun '(c, (p, g)) =>
        (* c += np.power(g, 2)   writes the array [c] in place *)
        gv <- load g ;;
        cv <- load c ;;
        cv' <- numpy (inplace fadd cv (np_power2 gv)) ;;
        store c cv' ;;
        (* p -= self.lr * g / (np.sqrt(c) + self.epsilon) *)
        gv <- load g ;;
        cv <- load c ;;
        d <- numpy (broadcast fdiv (scale lr gv)
                      (shift (np_sqrt cv) epsilon)) ;;
        pv <- load p ;;
        pv' <- numpy (inplace fsub pv d) ;;
        store p pv')
  | _ => fault
  end.

(** [optimizer.update(params, grads)]: the method of the instance's class.
    [RMSprop], [Adadelta], [Adam] and [Adamax] define no [update] and
    inherit the one of [Optimizer]. *)
Definition update (self : loc) (params grads : list loc) : M unit :=
  o <- get_object self ;;
  match o with
  | SGD _ _ => SGD_update self params grads
  | Momentum _ _ _ _ => Momentum_update self params grads
  | NesterovMomentum _ _ _ _ => NesterovMomentum_update self params grads
  | Adagrad _ _ _ _ => Adagrad_update self params grads
  | Optimizer _ _ | RMSprop _ _ | Adadelta _ _ | Adam _ _ | Adamax _ _ =>
      Optimizer_update self params grads
  end.

(** ** [copy.deepcopy] on an optimizer

    The floats are shared (they are immutable); the attribute list and
    every array in it are copied.  [memo] is deepcopy's memo: an array met
    a second time is given the copy made the first time. *)
Fixpoint memo_lookup (memo : list (loc * loc)) (l : loc) : option loc :=
  match memo with
  | [] => None
  | (k, v) :: memo' => if decide (k = l) then Some v else memo_lookup memo' l
  end.

Fixpoint deepcopy_arrays (ls : list loc) (memo : list (loc * loc))
  : M (list loc) :=
  match ls with
  | [] => ret []
  | l :: ls' =>
      match memo_lookup memo l with
      | Some l' =>
          rest <- deepcopy_arrays ls' memo ;;
          ret (l' :: rest)
      | None =>
          a <- load l ;;
          l' <- alloc a ;;
          rest <- deepcopy_arrays ls' ((l, l') :: memo) ;;
          ret (l' :: rest)
      end
  end.

Definition deepcopy_attr (attr : option (list loc)) : M (option (list loc)) :=
  match attr with
  | None => ret None
  | Some ls => ls' <- deepcopy_arrays ls [] ;; ret (Some ls')
  end.

Definition deepcopy (l : loc) : M loc :=
  o <- get_object l ;;
  match o with
  | Momentum momentum lr clip velocity =>
      velocity' <- deepcopy_attr velocity ;;
      new_object (Momentum momentum lr clip velocity')
  | NesterovMomentum momentum lr clip velocity =>
      velocity' <- deepcopy_attr velocity ;;
      new_object (NesterovMomentum momentum lr clip velocity')
  | Adagrad epsilon lr clip cache =>
      cache' <- deepcopy_attr cache ;;
      new_object (Adagrad epsilon lr clip cache')
  | Optimizer _ _ | SGD _ _ | RMSprop _ _ | Adadelta _ _ | Adam _ _
  | Adamax _ _ => new_object o
  end.

(** ** [get] *)

(** [name in [a, b]] *)
Definition name_in (name : string) (names : list string) : bool :=
  existsb (String.eqb name) names.

Definition get (optimizer : pyvalue) : M loc :=
  match optimizer with
  | PyStr name =>
      if name_in name ["sgd"; "SGD"] then
        new_object (SGD default_lr default_clip)
      else if name_in name ["momentum"; "Momentum"] then
        new_object (Momentum default_momentum default_lr default_clip None)
      else if name_in name ["nesterov_momentum"; "NesterovMomentum"] then
        new_object
          (NesterovMomentum default_momentum default_lr default_clip None)
      else if name_in name ["adagrad"; "Adagrad"] then
        new_object (Adagrad default_epsilon default_lr default_clip None)
      else if name_in name ["rmsprop"; "RMSprop"] then
        new_object (RMSprop default_lr default_clip)
      else if name_in name ["adadelta"; "Adadelta"] then
        new_object (Adadelta default_lr default_clip)
      else if name_in name ["adam"; "Adam"] then
        new_object (Adam default_lr default_clip)
      else if name_in name ["adamax"; "Adamax"] then
        new_object (Adamax default_lr default_clip)
      else
        raise (ValueError ("Unknown optimizer name: " +:+ name +:+ "."))
  | PyOptimizer l => deepcopy l
  | PyOther class_name =>
      raise (ValueError ("Unknown type: " +:+ class_name +:+ "."))
  end.

(** ** [Optimizer.__str__]: the name of the instance's class *)

Definition __str__ (self : optimizer) : string :=
  match self with
  | Optimizer _ _ => "Optimizer"
  | SGD _ _ => "SGD"
  | Momentum _ _ _ _ => "Momentum"
  | NesterovMomentum _ _ _ _ => "NesterovMomentum"
  | Adagrad _ _ _ _ => "Adagrad"
  | RMSprop _ _ => "RMSprop"
  | Adadelta _ _ => "Adadelta"
  | Adam _ _ => "Adam"
  | Adamax _ _ => "Adamax"
  end.

End Model.

Arguments state F : clear implicits.
Arguments optimizer F : clear implicits.
Arguments M F A : clear implicits.

Arguments Optimizer {F} lr clip.
Arguments SGD {F} lr clip.
Arguments Momentum {F} momentum lr clip velocity.
Arguments NesterovMomentum {F} momentum lr clip velocity.
Arguments Adagrad {F} epsilon lr clip cache.
Arguments RMSprop {F} lr clip.
Arguments Adadelta {F} lr clip.
Arguments Adam {F} lr clip.
Arguments Adamax {F} lr clip.
Arguments State {F} arrays objects.
Arguments update {F _} (self params grads)%_nat_scope _.
Arguments get {F _} optimizer _.

Notation "x <- m ;; k" := (bind m (fun x => k))
  (at level 100, m at next level, k at level 200, right associativity).
Notation "m ;; k" := (bind m (fun _ => k))
  (at level 100, k at level 200, right associativity).

(** ** Vocabulary of the statements *)

Section Vocabulary.

Context {F : Type} `{Scalar F}.
Implicit Types (s : state F) (P Q : loc -> Prop).

(** [frame P Q s s']: going from [s] to [s'], the store only grew, and
    every array outside [P] and every instance outside [Q] that existed in
    [s] is as it was. *)
Definition frame P Q s s' : Prop :=
  (length (arrays s) <= length (arrays s') /\
   forall l, l < length (arrays s) -> ~ P l ->
             arrays s' !! l = arrays s !! l) /\
  (length (objects s) <= length (objects s') /\
   forall l, l < length (objects s) -> ~ Q l ->
             objects s' !! l = objects s !! l).

(** Every run of [m] writes at most the arrays in [P] and the instances in
    [Q]. *)
Definition touches {A} P Q (m : M F A) : Prop :=
  forall s r s', m s = (r, s') -> frame P Q s s'.

(** The arrays a call of [update] may write: the parameters that have a
    gradient, and the accumulators of [Adagrad].  The velocity arrays of
    [Momentum] and [NesterovMomentum] are not among them. *)
Definition written (o : optimizer F) (params grads : list loc) (l : loc)
  : Prop :=
  l ∈ take (length grads) params \/
  match o with
  | Adagrad _ _ _ (Some cs) => l ∈ cs
  | _ => False
  end.

(** The [i]-th parameter and the [i]-th gradient are arrays of one shape,
    for every [i] that has both. *)
Definition paired s (params grads : list loc) : Prop :=
  forall i p g,
    params !! i = Some p -> grads !! i = Some g ->
    exists pv gv,
      arrays s !! p = Some pv /\ arrays s !! g = Some gv /\
      shape pv = shape gv.

(** No gradient buffer is also a parameter array. *)
Definition separate (params grads : list loc) : Prop :=
  forall g, g ∈ grads -> g ∉ params.

(** The instance has its auxiliary arrays, or its class keeps none. *)
Definition initialised (o : optimizer F) : bool :=
  match o with
  | Momentum _ _ _ None | NesterovMomentum _ _ _ None | Adagrad _ _ _ None =>
      false
  | _ => true
  end.

(** The [i]-th accumulator, parameter and gradient are arrays of one
    shape, for every [i] that has all three. *)
Definition tracked s (cs params grads : list loc) : Prop :=
  forall i c p g,
    cs !! i = Some c -> params !! i = Some p -> grads !! i = Some g ->
    exists cv pv gv,
      arrays s !! c = Some cv /\ arrays s !! p = Some pv /\
      arrays s !! g = Some gv /\
      shape cv = shape gv /\ shape pv = shape gv.

(** What one pass of the loop of [Adagrad.update] leaves in the
    accumulator and in the parameter: [c + g**2] and
    [p - lr * g / (sqrt(c + g**2) + epsilon)]. *)
Definition Adagrad_cache (cv gv : ndarray F) : ndarray F :=
  zip_with fadd cv (np_power2 gv).

Definition Adagrad_param epsilon lr (cv pv gv : ndarray F) : ndarray F :=
  zip_with fsub pv
    (zip_with fdiv (scale lr gv)
       (shift (np_sqrt (Adagrad_cache cv gv)) epsilon)).

(** The configuration of an instance: the instance without its auxiliary
    arrays. *)
Definition forget_aux (o : optimizer F) : optimizer F :=
  match o with
  | Momentum momentum lr clip _ => Momentum momentum lr clip None
  | NesterovMomentum momentum lr clip _ =>
      NesterovMomentum momentum lr clip None
  | Adagrad epsilon lr clip _ => Adagrad epsilon lr clip None
  | _ => o
  end.

(** The classes that keep a velocity. *)
Definition keeps_velocity (o : optimizer F) : bool :=
  match o with
  | Momentum _ _ _ _ | NesterovMomentum _ _ _ _ => true
  | _ => false
  end.

(** The classes that define no [update] of their own. *)
Definition inherits_update (o : optimizer F) : bool :=
  match o with
  | Optimizer _ _ | RMSprop _ _ | Adadelta _ _ | Adam _ _ | Adamax _ _ => true
  | SGD _ _ | Momentum _ _ _ _ | NesterovMomentum _ _ _ _ | Adagrad _ _ _ _ =>
      false
  end.

(** The two spellings [get] knows for each class, with the instance the
    class's constructor builds from its default arguments. *)
Definition registry : list (string * string * optimizer F) :=
  [ ("sgd", "SGD", SGD default_lr default_clip);
    ("momentum", "Momentum",
      Momentum default_momentum default_lr default_clip None);
    ("nesterov_momentum", "NesterovMomentum",
      NesterovMomentum default_momentum default_lr default_clip None);
    ("adagrad", "Adagrad", Adagrad default_epsilon default_lr default_clip None);
    ("rmsprop", "RMSprop", RMSprop default_lr default_clip);
    ("adadelta", "Adadelta", Adadelta default_lr default_clip);
    ("adam", "Adam", Adam default_lr default_clip);
    ("adamax", "Adamax", Adamax default_lr default_clip) ].

(** Every location of the list refers to an array. *)
Definition allocated s (ls : list loc) : Prop :=
  forall l, l ∈ ls -> l < length (arrays s).

(** What one pass of the loop of [Momentum.update] and of
    [NesterovMomentum.update] leaves in the parameter, [v] being the array
    held in [self.velocity]. *)
Definition Momentum_param momentum lr (vv pv gv : ndarray F) : ndarray F :=
  zip_with fadd pv (zip_with fsub (scale momentum vv) (scale lr gv)).

Definition NesterovMomentum_param momentum lr (vv pv gv : ndarray F)
  : ndarray F :=
  zip_with fadd pv
    (zip_with fsub
       (scale momentum (zip_with fsub (scale momentum vv) (scale lr gv)))
       (scale lr gv)).

Definition velocity_param (o : optimizer F) (vv pv gv : ndarray F)
  : ndarray F :=
  match o with
  | Momentum momentum lr _ _ => Momentum_param momentum lr vv pv gv
  | NesterovMomentum momentum lr _ _ =>
      NesterovMomentum_param momentum lr vv pv gv
  | _ => pv
  end.

(** The classes that keep auxiliary arrays, on an instance that has them. *)
Definition has_state (o : optimizer F) : bool :=
  match o with
  | Momentum _ _ _ (Some _) | NesterovMomentum _ _ _ (Some _)
  | Adagrad _ _ _ (Some _) => true
  | _ => false
  end.

(** The [i]-th velocity array is zero and shaped like the [i]-th
    parameter, for every [i] that has a velocity array, a parameter and a
    gradient. *)
Definition at_rest s (vs params grads : list loc) : Prop :=
  forall i v p g pv,
    vs !! i = Some v -> params !! i = Some p -> grads !! i = Some g ->
    arrays s !! p = Some pv ->
    arrays s !! v = Some (_zero (shape pv)).

End Vocabulary.

(** Case-insensitive comparison of names, as the specification words the
    lookup. *)
Definition lower_ascii (c : ascii) : ascii :=
  let n := nat_of_ascii c in
  if (65 <=? n) && (n <=? 90) then ascii_of_nat (n + 32) else c.

Fixpoint lower (name : string) : string :=
  match name with
  | EmptyString => EmptyString
  | String c rest => String (lower_ascii c) (lower rest)
  end.

Definition optimizer_names : list string :=
  ["sgd"; "momentum"; "nesterov_momentum"; "adagrad"; "rmsprop"; "adadelta";
   "adam"; "adamax"].

(** The lookup as the specification states it: every string that matches a
    name without regard to case resolves to an instance. *)
Definition case_insensitive_resolution : Prop :=
  forall (s : state R) (name : string),
    lower name ∈ optimizer_names ->
    exists l s', get (PyStr name) s = (Return l, s').

(** The step size [Adagrad] applies to a gradient entry whose accumulator
    holds [c]: [lr / (sqrt(c) + epsilon)]. *)
Definition rate (lr epsilon c : R) : R := (lr / (sqrt c + epsilon))%R.

(** The factor by which a gradient entry moves a parameter entry when the
    stored velocity is zero. *)
Definition descent_rate (o : optimizer R) : R :=
  match o with
  | Momentum _ lr _ _ => lr
  | NesterovMomentum momentum lr _ _ => ((1 + momentum) * lr)%R
  | _ => 0%R
  end.

(** ** Concrete stores

    One optimizer instance at location 0, one parameter array at location 0
    and its gradient at location 1, over the reals and over binary64. *)

Module Scenario.

(* Momentum(momentum=0.9, lr=0.1), p = [1.0], g = [1.0] *)
Definition momentum_R : state R :=
  State [[1]; [1]]%R [Momentum 0.9 0.1 (-1) None]%R.
Definition momentum_b64 : state PrimFloat.float :=
  State [[1]; [1]]%float [Momentum 0.9 0.1 (-1) None]%float.

(* Momentum(momentum=0.9, lr=0.1, clip=0.5), p = [1.0], g = [2.0] *)
Definition momentum_clip_R : state R :=
  State [[1]; [2]]%R [Momentum 0.9 0.1 0.5 None]%R.
Definition momentum_clip_b64 : state PrimFloat.float :=
  State [[1]; [2]]%float [Momentum 0.9 0.1 0.5 None]%float.

(* SGD(lr=0.1, clip=0.5), p = [1.0], g = [2.0] *)
Definition sgd_clip_R : state R :=
  State [[1]; [2]]%R [SGD 0.1 0.5]%R.

(* NesterovMomentum(momentum=0.9, lr=0.1), p = [1.0], g = [1.0] *)
Definition nesterov_R : state R :=
  State [[1]; [1]]%R [NesterovMomentum 0.9 0.1 (-1) None]%R.
Definition nesterov_b64 : state PrimFloat.float :=
  State [[1]; [1]]%float [NesterovMomentum 0.9 0.1 (-1) None]%float.

(* SGD(lr=0.1), p = [1.0], g = [2.0] *)
Definition sgd_R : state R :=
  State [[1]; [2]]%R [SGD 0.1 (-1)]%R.
Definition sgd_b64 : state PrimFloat.float :=
  State [[1]; [2]]%float [SGD 0.1 (-1)]%float.

(* No optimizer yet; p = [1.0], g = [1.0] *)
Definition bare_R : state R := State [[1]; [1]]%R [].

(* Adamax(lr=0.002), p = [1.0], g = [1.0] *)
Definition adamax_R : state R :=
  State [[1]; [1]]%R [Adamax 0.002 (-1)]%R.

(* SGD(lr=0.1); two parameter arrays (locations 0 and 2), one gradient
   (location 1) *)
Definition sgd_unequal_R : state R :=
  State [[1]; [2]; [1]]%R [SGD 0.1 (-1)]%R.

(* Adagrad(epsilon=1e-6, lr=0.1) whose cache is the array at location 2,
   holding [1.0]; p = [0.9], g = [1.0] *)
Definition adagrad_R : state R :=
  State [[0.9]; [1]; [1]]%R [Adagrad 0.000001 0.1 (-1) (Some [2%nat])]%R.

(* Adagrad(epsilon=1e-6, lr=0.1) before its first step *)
Definition adagrad_b64 : state PrimFloat.float :=
  State [[1]; [1]]%float [Adagrad 1e-6 0.1 (-1) None]%float.

(* As [adagrad_R], in binary64 *)
Definition adagrad_stepped_b64 : state PrimFloat.float :=
  State [[0.9]; [1]; [1]]%float [Adagrad 1e-6 0.1 (-1) (Some [2%nat])]%float.

(* [momentum_R] after one call: the velocity array is at location 2 *)
Definition momentum_stepped_R : state R :=
  State [[0.9]; [1]; [0]]%R [Momentum 0.9 0.1 (-1) (Some [2%nat])]%R.

(* Momentum(momentum=0.9, lr=0.1) after a call with no parameters: its
   velocity is the empty list; p = [1.0], g = [1.0] *)
Definition momentum_empty_R : state R :=
  State [[1]; [1]]%R [Momentum 0.9 0.1 (-1) (Some [])]%R.


(* SGD(lr=0.1); parameters at locations 0 and 2, gradients at 1 and 3; the
   second gradient has three entries where its parameter has two *)
Definition sgd_misshapen_R : state R :=
  State [[1]; [2]; [1; 1]; [2; 2; 2]]%R [SGD 0.1 (-1)]%R.

End Scenario.

(** ** Stepping through monadic code *)

Section Monad.

Context {F : Type} `{Scalar F}.
Implicit Types s : state F.

Lemma bind_Return {A B} (m : M F A) (k : A -> M F B) s a s1 :
  m s = (Return a, s1) -> bind m k s = k a s1.
Proof. intros Hm. unfold bind. now rewrite Hm. Qed.

Lemma bind_inv {A B} (m : M F A) (k : A -> M F B) s r s' :
  bind m k s = (r, s') ->
  (exists a s1, m s = (Return a, s1) /\ k a s1 = (r, s')) \/
  (exists e, m s = (Raise e, s') /\ r = Raise e) \/
  (m s = (Fault, s') /\ r = Fault).
Proof.
  unfold bind. destruct (m s) as [[a|e|] s1]; intros Hk.
  - left. eauto.
  - right. left. exists e. now inversion Hk.
  - right. right. now inversion Hk.
Qed.

Lemma load_Some s l a : arrays s !! l = Some a -> load l s = (Return a, s).
Proof. intros Hl. unfold load. now rewrite Hl. Qed.

Lemma get_object_Some s l o :
  objects s !! l = Some o -> get_object l s = (Return o, s).
Proof. intros Hl. unfold get_object. now rewrite Hl. Qed.

Lemma store_lt s l a :
  l < length (arrays s) ->
  store l a s = (Return tt, State (<[l := a]> (arrays s)) (objects s)).
Proof. intros Hl. unfold store. now rewrite decide_True. Qed.

End Monad.

(** ** What a call may write *)

Section Frame.

Context {F : Type} `{Scalar F}.
Implicit Types (s : state F) (P Q : loc -> Prop).

Lemma frame_refl P Q s : frame P Q s s.
Proof. repeat split; auto. Qed.

(** Composition; the second step may write arrays created by the first. *)
Lemma frame_seq P P' Q s s1 s2 :
  frame P Q s s1 -> frame P' Q s1 s2 ->
  (forall l, l < length (arrays s) -> P' l -> P l) ->
  frame P Q s s2.
Proof.
  intros [[Ha1 Hf1] [Ho1 Hg1]] [[Ha2 Hf2] [Ho2 Hg2]] Hsub.
  repeat split; try lia.
  - intros l Hl Hn. rewrite Hf2; [auto | lia | intros HP; auto].
  - intros l Hl Hn. rewrite Hg2; [auto | lia | auto].
Qed.

Lemma frame_trans P Q s s1 s2 :
  frame P Q s s1 -> frame P Q s1 s2 -> frame P Q s s2.
Proof. intros H1 H2. eapply frame_seq; eauto. Qed.

Lemma frame_mono P P' Q Q' s s' :
  (forall l, P l -> P' l) -> (forall l, Q l -> Q' l) ->
  frame P Q s s' -> frame P' Q' s s'.
Proof.
  intros HP HQ [[Ha Hf] [Ho Hg]]. repeat split; auto.
Qed.

Lemma touches_ret {A} P Q (a : A) : touches (F:=F) P Q (ret a).
Proof. intros s r s' [= <- <-]. apply frame_refl. Qed.

Lemma touches_raise {A} P Q e : touches (F:=F) P Q (raise (A:=A) e).
Proof. intros s r s' [= <- <-]. apply frame_refl. Qed.

Lemma touches_fault {A} P Q : touches (F:=F) P Q (fault (A:=A)).
Proof. intros s r s' [= <- <-]. apply frame_refl. Qed.

Lemma touches_bind {A B} P Q (m : M F A) (k : A -> M F B) :
  touches (F:=F) P Q m -> (forall a, touches (F:=F) P Q (k a)) -> touches (F:=F) P Q (bind m k).
Proof.
  intros Hm Hk s r s' Hrun.
  destruct (bind_inv _ _ _ _ _ Hrun) as [(a & s1 & H1 & H2)|[(e & H1 & _)|[H1 _]]].
  - eapply frame_trans; [eapply Hm | eapply Hk]; eauto.
  - eapply Hm; eauto.
  - eapply Hm; eauto.
Qed.

Lemma touches_load P Q l : touches (F:=F) P Q (load l).
Proof.
  intros s r s'. unfold load.
  destruct (arrays s !! l); intros [= <- <-]; apply frame_refl.
Qed.

Lemma touches_get_object P Q l : touches (F:=F) P Q (get_object l).
Proof.
  intros s r s'. unfold get_object.
  destruct (objects s !! l); intros [= <- <-]; apply frame_refl.
Qed.

Lemma touches_numpy P Q r : touches (F:=F) P Q (numpy r).
Proof. destruct r; [apply touches_ret | apply touches_raise]. Qed.

Lemma touches_store P Q l a : P l -> touches (F:=F) P Q (store l a).
Proof.
  intros HP s r s'. unfold store.
  destruct (decide (l < length (arrays s))); intros [= <- <-];
    [|apply frame_refl].
  repeat split; simpl; auto.
  - now rewrite length_insert.
  - intros l' Hl' Hn. apply list_lookup_insert_ne. congruence.
Qed.

Lemma touches_alloc P Q a : touches (F:=F) P Q (alloc a).
Proof.
  intros s r s' [= <- <-]. repeat split; simpl; auto.
  - rewrite length_app. lia.
  - intros l Hl _. now apply lookup_app_l.
Qed.

Lemma touches_set_object P Q l o : Q l -> touches (F:=F) P Q (set_object l o).
Proof.
  intros HQ s r s'. unfold set_object.
  destruct (decide (l < length (objects s))); intros [= <- <-];
    [|apply frame_refl].
  repeat split; simpl; auto.
  - now rewrite length_insert.
  - intros l' Hl' Hn. apply list_lookup_insert_ne. congruence.
Qed.

Lemma touches_new_object P Q o : touches (F:=F) P Q (new_object o).
Proof.
  intros s r s' [= <- <-]. repeat split; simpl; auto.
  - rewrite length_app. lia.
  - intros l Hl _. now apply lookup_app_l.
Qed.

Lemma touches_for_each {A} P Q (xs : list A) (body : A -> M F unit) :
  (forall x, x ∈ xs -> touches (F:=F) P Q (body x)) ->
  touches (F:=F) P Q (for_each xs body).
Proof.
  induction xs as [|x xs IH]; intros Hbody; simpl.
  - apply touches_ret.
  - apply touches_bind.
    + apply Hbody. left.
    + intros _. apply IH. intros y Hy. apply Hbody. now right.
Qed.

Lemma touches_zeros_like P Q xs : touches (F:=F) P Q (zeros_like xs).
Proof.
  induction xs as [|x xs IH]; simpl.
  - apply touches_ret.
  - apply touches_bind; [apply touches_load|intros a].
    apply touches_bind; [apply touches_alloc|intros z].
    apply touches_bind; [apply IH|intros zs]. apply touches_ret.
Qed.

(** The arrays [zeros_like] returns are new. *)
Lemma zeros_like_fresh xs s zs s' :
  zeros_like xs s = (Return zs, s') ->
  Forall (fun z => length (arrays s) <= z < length (arrays s')) zs.
Proof.
  revert s zs s'. induction xs as [|x xs IH]; intros s zs s'; simpl.
  - intros [= <- <-]. constructor.
  - intros Hrun.
    destruct (bind_inv _ _ _ _ _ Hrun) as [(a & s1 & H1 & H2)|[(e & _ & ?)|[_ ?]]];
      try discriminate.
    assert (s1 = s) as ->.
    { unfold load in H1. destruct (arrays s !! x); now inversion H1. }
    clear Hrun H1. unfold bind at 1 in H2. simpl in H2.
    destruct (bind_inv _ _ _ _ _ H2) as [(zs' & s2 & H3 & H4)|[(e & _ & ?)|[_ ?]]];
      try discriminate.
    injection H4 as <- <-.
    pose proof (touches_zeros_like (fun _ => False) (fun _ => False) _ _ _ _ H3)
      as [[Hlen _] _].
    apply IH in H3. simpl in H3, Hlen. rewrite length_app in H3, Hlen.
    simpl in H3, Hlen.
    constructor; [lia|].
    eapply Forall_impl; [exact H3|]. simpl. intros z. lia.
Qed.

Lemma elem_of_zip3 {A B C} (x : A) (y : B) (z : C) xs ys zs :
  (x, (y, z)) ∈ zip xs (zip ys zs) ->
  exists i, xs !! i = Some x /\ ys !! i = Some y /\ zs !! i = Some z.
Proof.
  intros Hin. apply list_elem_of_lookup in Hin as [i Hi].
  apply lookup_zip_Some in Hi as [Hx Hyz].
  apply lookup_zip_Some in Hyz as [Hy Hz]. eauto.
Qed.

Lemma lookup_paired (params grads : list loc) i p g :
  params !! i = Some p -> grads !! i = Some g ->
  p ∈ take (length grads) params.
Proof.
  intros Hp Hg. apply elem_of_take. exists i. split; [done|].
  eapply lookup_lt_Some, Hg.
Qed.

Ltac touch :=
  repeat first
    [ apply touches_ret | apply touches_raise | apply touches_fault
    | apply touches_load | apply touches_get_object | apply touches_numpy
    | apply touches_alloc | apply touches_new_object
    | apply touches_zeros_like
    | apply touches_store | apply touches_set_object
    | apply touches_bind; [|intros ?] ].

Lemma touches_SGD_update self params grads :
  touches (F:=F) (fun l => l ∈ take (length grads) params) (eq self)
    (SGD_update self params grads).
Proof.
  unfold SGD_update. apply touches_bind; [touch|intros o].
  destruct o; touch.
  apply touches_for_each. intros [p g] Hin.
  apply list_elem_of_lookup in Hin as [i Hi].
  apply lookup_zip_Some in Hi as [Hp Hg]. touch.
  eapply lookup_paired; eauto.
Qed.

Lemma touches_Momentum_update self params grads :
  touches (F:=F) (fun l => l ∈ take (length grads) params) (eq self)
    (Momentum_update self params grads).
Proof.
  unfold Momentum_update. apply touches_bind; [touch|intros o].
  destruct o; touch.
  - destruct velocity; touch. reflexivity.
  - apply touches_for_each. intros [v [p g]] Hin.
    apply elem_of_zip3 in Hin as (i & _ & Hp & Hg). touch.
    eapply lookup_paired; eauto.
Qed.

Lemma touches_NesterovMomentum_update self params grads :
  touches (F:=F) (fun l => l ∈ take (length grads) params) (eq self)
    (NesterovMomentum_update self params grads).
Proof.
  unfold NesterovMomentum_update. apply touches_bind; [touch|intros o].
  destruct o; touch.
  - destruct velocity; touch. reflexivity.
  - apply touches_for_each. intros [v [p g]] Hin.
    apply elem_of_zip3 in Hin as (i & _ & Hp & Hg). touch.
    eapply lookup_paired; eauto.
Qed.

(** The loop of [Adagrad.update] writes accumulators and parameters. *)
Lemma touches_Adagrad_loop epsilon lr cs params grads :
  touches (F:=F) (fun l => l ∈ take (length grads) params \/ l ∈ cs)
    (fun _ => False)
    (for_each (zip cs (zip params grads)) (fun '(c, (p, g)) =>
       gv <- load g ;;
       cv <- load c ;;
       cv' <- numpy (inplace fadd cv (np_power2 gv)) ;;
       store c cv' ;;
       gv <- load g ;;
       cv <- load c ;;
       d <- numpy (broadcast fdiv (scale lr gv)
                     (shift (np_sqrt cv) epsilon)) ;;
       pv <- load p ;;
       pv' <- numpy (inplace fsub pv d) ;;
       store p pv')).
Proof.
  apply touches_for_each. intros [c [p g]] Hin.
  apply elem_of_zip3 in Hin as (i & Hc & Hp & Hg). touch.
  - right. eapply list_elem_of_lookup_2, Hc.
  - left. eapply lookup_paired; eauto.
Qed.

Theorem update_frame s self o params grads r s' :
  objects s !! self = Some o ->
  update self params grads s = (r, s') ->
  frame (written o params grads) (eq self) s s'.
Proof.
  intros Ho. unfold update.
  rewrite (bind_Return _ _ _ _ _ (get_object_Some _ _ _ Ho)).
  destruct o as [| | | |epsilon lr clip cache| | | |]; intros Hrun;
    try (injection Hrun as <- <-; apply frame_refl).
  - eapply frame_mono; [| |eapply touches_SGD_update, Hrun];
      unfold written; auto.
  - eapply frame_mono; [| |eapply touches_Momentum_update, Hrun];
      unfold written; auto.
  - eapply frame_mono; [| |eapply touches_NesterovMomentum_update, Hrun];
      unfold written; auto.
  - unfold Adagrad_update in Hrun.
    rewrite (bind_Return _ _ _ _ _ (get_object_Some _ _ _ Ho)) in Hrun.
    destruct cache as [cs|].
    + unfold bind at 1 in Hrun. simpl in Hrun.
      eapply frame_mono;
        [| |eapply (touches_Adagrad_loop epsilon lr cs), Hrun];
        unfold written; simpl; tauto.
    + destruct (bind_inv _ _ _ _ _ Hrun)
        as [(cs & s2 & Hinit & Hloop)|[(e & Hinit & _)|[Hinit _]]].
      * destruct (bind_inv _ _ _ _ _ Hinit)
          as [(cs' & s1 & Hz & Hset)|[(e & _ & ?)|[_ ?]]]; try discriminate.
        pose proof (zeros_like_fresh _ _ _ _ Hz) as Hfresh.
        assert (frame (written (Adagrad epsilon lr clip None) params grads)
                  (eq self) s s2) as Hs2.
        { eapply frame_trans.
          - eapply touches_zeros_like, Hz.
          - destruct (bind_inv _ _ _ _ _ Hset)
              as [([] & s1' & Hset1 & Hret)|[(e & _ & ?)|[_ ?]]];
              try discriminate.
            injection Hret as _ <-.
            eapply touches_set_object, Hset1. reflexivity. }
        assert (cs' = cs) as ->.
        { destruct (bind_inv _ _ _ _ _ Hset)
            as [([] & s1' & _ & Hret)|[(e & _ & ?)|[_ ?]]];
            try discriminate.
          now injection Hret. }
        eapply frame_seq; [exact Hs2| |].
        -- eapply frame_mono;
             [| |eapply (touches_Adagrad_loop epsilon lr cs), Hloop];
             [intros l Hl; exact Hl|intros l []].
        -- intros l Hl [Hp|Hc]; [now left|].
           rewrite Forall_forall in Hfresh. apply Hfresh in Hc. lia.
      * assert (touches (F:=F) (written (Adagrad epsilon lr clip None) params grads)
                  (eq self)
                  (vs <- zeros_like grads ;;
                   set_object self (Adagrad epsilon lr clip (Some vs)) ;;
                   ret vs)) as Ht by (touch; reflexivity).
        eapply Ht, Hinit.
      * assert (touches (F:=F) (written (Adagrad epsilon lr clip None) params grads)
                  (eq self)
                  (vs <- zeros_like grads ;;
                   set_object self (Adagrad epsilon lr clip (Some vs)) ;;
                   ret vs)) as Ht by (touch; reflexivity).
        eapply Ht, Hinit.
Qed.

End Frame.

(** ** Evaluating closed runs *)

(** Over the reals a closed run is unfolded down to the arithmetic, which
    [lra] then decides. *)
Ltac run_R :=
  cbv -[Rplus Rminus Rmult Rdiv Ropp Rinv sqrt Rmin Rmax Rlt_dec Rle_dec
        IZR Rlt Rle].

Ltac decide_R :=
  repeat match goal with
         | |- context [Rlt_dec ?a ?b] =>
             destruct (Rlt_dec a b); try (exfalso; lra)
         end.

Ltac close_R := repeat f_equal; lra.

(** ** Classes without an [update] *)

Section Stubs.

Context {F : Type} `{Scalar F}.

(** C5: [update] on an instance of [RMSprop], [Adadelta], [Adam] or
    [Adamax], or on an instance of the base class [Optimizer] itself, raises
    [NotImplementedError] whatever the parameters and gradients are, and
    leaves the whole store (parameter arrays and optimizer instances) as it
    was. *)
Theorem update_not_implemented (s : state F) self o params grads :
  objects s !! self = Some o ->
  inherits_update o = true ->
  update self params grads s = (Raise NotImplementedError, s).
Proof.
  intros Ho Hstub. unfold update.
  rewrite (bind_Return _ _ _ _ _ (get_object_Some _ _ _ Ho)).
  destruct o; try discriminate Hstub; reflexivity.
Qed.

End Stubs.

Lemma update_not_implemented_witness :
  update 0 [0] [1] Scenario.adamax_R
  = (Raise NotImplementedError, Scenario.adamax_R).
Proof.
  apply (update_not_implemented Scenario.adamax_R 0 (Adamax 0.002 (-1))%R);
    reflexivity.
Defined.

(** C4, at the failing input: an [Adam] built by [get("adam")] has the
    default [lr] and [clip] and nothing else (no step counter, no moment
    arrays), and its [update] raises [NotImplementedError] without touching
    the parameter. *)
Theorem Adam_update_is_missing :
  (opt <- get (PyStr "adam") ;; update opt [0] [1]) Scenario.bare_R
  = (Raise NotImplementedError,
     State [[1]; [1]]%R [Adam 0.001 (-1)]%R).
Proof. reflexivity. Qed.

(** ** The velocity of [Momentum] and [NesterovMomentum] *)

(** On every input: a call of [Momentum.update] or
    [NesterovMomentum.update] leaves each array of [self.velocity] as it
    was, unless the caller hands that very array in as a parameter. *)
Lemma velocity_never_written {F : Type} `{Scalar F}
    (s : state F) self o params grads r s' v :
  objects s !! self = Some o ->
  keeps_velocity o = true ->
  v ∈ aux_arrays o -> v ∉ params -> v < length (arrays s) ->
  update self params grads s = (r, s') ->
  arrays s' !! v = arrays s !! v.
Proof.
  intros Ho Hkeeps Hv Hparams Hlt Hrun.
  destruct (update_frame _ _ _ _ _ _ _ Ho Hrun) as [[_ Hframe] _].
  apply Hframe; [exact Hlt|]. intros [Hin|Hin].
  - apply Hparams. apply elem_of_take in Hin as (i & Hi & _).
    eapply list_elem_of_lookup_2, Hi.
  - destruct o; try discriminate Hkeeps; exact Hin.
Qed.

Lemma velocity_never_written_witness :
  arrays (update 0 [0] [1] Scenario.momentum_stepped_R).2 !! 2 = Some [0%R].
Proof.
  rewrite (velocity_never_written Scenario.momentum_stepped_R 0
             (Momentum 0.9 0.1 (-1) (Some [2%nat]))%R [0] [1]
             (update 0 [0] [1] Scenario.momentum_stepped_R).1
             (update 0 [0] [1] Scenario.momentum_stepped_R).2 2
             eq_refl eq_refl);
    [reflexivity| | |simpl; lia|apply surjective_pairing].
  - now apply list_elem_of_singleton.
  - intros Hin. apply list_elem_of_singleton in Hin. discriminate.
Defined.

(** C1, at the failing input.  The first call creates the velocity array
    (location 2) and moves [p] to 0.9; the assignment [v = ...] binds the
    loop's local name and writes no array, so the array stays zero.  The
    second call therefore starts from [v = 0] again and moves [p] to 0.8
    (not 0.71), and the array is still zero (not -0.19). *)
Theorem Momentum_velocity_not_persisted :
  update 0 [0] [1] Scenario.momentum_R
  = (Return tt,
     State [[0.9]; [1]; [0]]%R [Momentum 0.9 0.1 (-1) (Some [2%nat])]%R) /\
  (update 0 [0] [1] ;; update 0 [0] [1]) Scenario.momentum_R
  = (Return tt,
     State [[0.8]; [1]; [0]]%R [Momentum 0.9 0.1 (-1) (Some [2%nat])]%R) /\
  (update 0 [0] [1] ;; update 0 [0] [1]) Scenario.momentum_b64
  = (Return tt,
     State [[0.8]; [1]; [0]]%float [Momentum 0.9 0.1 (-1) (Some [2%nat])]%float).
Proof.
  split; [|split].
  - run_R. close_R.
  - run_R. close_R.
  - vm_compute. reflexivity.
Qed.

(** C7, at the failing input.  As in [Momentum.update] the velocity array
    is never written: both calls compute [v = 0.9 * 0 - 0.1 * 1], so [p]
    goes from 1 to 0.81 and then to 0.62 (with a persisted velocity the
    second step would reach 0.539), and the array stays zero. *)
Theorem NesterovMomentum_velocity_not_persisted :
  update 0 [0] [1] Scenario.nesterov_R
  = (Return tt,
     State [[0.81]; [1]; [0]]%R [NesterovMomentum 0.9 0.1 (-1) (Some [2%nat])]%R) /\
  (update 0 [0] [1] ;; update 0 [0] [1]) Scenario.nesterov_R
  = (Return tt,
     State [[0.62]; [1]; [0]]%R [NesterovMomentum 0.9 0.1 (-1) (Some [2%nat])]%R) /\
  (update 0 [0] [1] ;; update 0 [0] [1]) Scenario.nesterov_b64
  = (Return tt,
     State [[0.62000000000000011]; [1]; [0]]%float
       [NesterovMomentum 0.9 0.1 (-1) (Some [2%nat])]%float).
Proof.
  split; [|split].
  - run_R. close_R.
  - run_R. close_R.
  - vm_compute. reflexivity.
Qed.

(** ** Clipping *)

(** [npdl_clip] over the reals: a boundary that is not positive gives the
    gradient back, a positive boundary [b] gives entries of magnitude at
    most [b]. *)
Lemma npdl_clip_spec (grad : list R) (boundary : R) :
  ((boundary <= 0)%R -> npdl_clip grad boundary = grad) /\
  ((0 < boundary)%R ->
   length (npdl_clip grad boundary) = length grad /\
   Forall (fun x => (Rabs x <= boundary)%R) (npdl_clip grad boundary)).
Proof.
  unfold npdl_clip, np_clip. simpl. split; intros Hb.
  - rewrite bool_decide_eq_false_2 by lra. reflexivity.
  - rewrite bool_decide_eq_true_2 by lra. split; [apply length_map|].
    apply Forall_forall. intros y Hy.
    apply list_elem_of_fmap in Hy as (x & -> & _).
    unfold Rmin, Rmax. apply Rabs_le.
    repeat destruct Rle_dec; lra.
Qed.

(** C2, at the failing input.  With [clip = 0.5] and [g = 2], [SGD.update]
    steps by the clipped gradient ([p = 1 - 0.1 * 0.5 = 0.95]) while
    [Momentum.update] never consults [self.clip] and steps by the gradient
    as given ([p = 1 - 0.1 * 2 = 0.8]). *)
Theorem Momentum_ignores_clip :
  update 0 [0] [1] Scenario.sgd_clip_R
  = (Return tt, State [[0.95]; [2]]%R [SGD 0.1 0.5]%R) /\
  update 0 [0] [1] Scenario.momentum_clip_R
  = (Return tt,
     State [[0.8]; [2]; [0]]%R [Momentum 0.9 0.1 0.5 (Some [2%nat])]%R) /\
  update 0 [0] [1] Scenario.momentum_clip_b64
  = (Return tt,
     State [[0.8]; [2]; [0]]%float [Momentum 0.9 0.1 0.5 (Some [2%nat])]%float).
Proof.
  split; [|split].
  - run_R. decide_R. run_R.
    unfold Rmin, Rmax.
    repeat (destruct Rle_dec; try (exfalso; lra)); run_R; close_R.
  - run_R. close_R.
  - vm_compute. reflexivity.
Qed.

(** ** Resolving a name *)

(** C6 as stated fails: ["ADAM"] matches ["adam"] without regard to case,
    and [get] raises [ValueError] on it. *)
Lemma case_insensitive_resolution_fails : ~ case_insensitive_resolution.
Proof.
  intros Hclaim.
  destruct (Hclaim (State [] []) "ADAM") as (l & s' & Hget).
  - vm_compute. repeat constructor.
  - discriminate Hget.
Qed.

Section Registry.

Context {F : Type} `{Scalar F}.

(** C6, amended: for each of the eight classes [get] knows exactly two
    spellings, the lower-case name and the class name.  On either of them
    it returns a new instance (a location not in use before) built from the
    class's default arguments, with no auxiliary state, and changes nothing
    else. *)
Theorem get_spelled_name (s : state F) lower_name class_name o name :
  (lower_name, class_name, o) ∈ registry ->
  name = lower_name \/ name = class_name ->
  get (PyStr name) s
  = (Return (length (objects s)), State (arrays s) (objects s ++ [o])).
Proof.
  intros Hin Hname. unfold registry in Hin.
  repeat (apply elem_of_cons in Hin as [[= -> -> ->]|Hin];
          [destruct Hname as [->| ->]; reflexivity|]).
  now apply elem_of_nil in Hin.
Qed.

Lemma name_in_false name a b :
  name <> a -> name <> b -> name_in name [a; b] = false.
Proof.
  intros Ha Hb. unfold name_in. simpl.
  apply String.eqb_neq in Ha, Hb. now rewrite Ha, Hb.
Qed.

(** Every other string raises [ValueError]. *)
Lemma get_other_name (s : state F) name :
  (forall lower_name class_name o,
      (lower_name, class_name, o) ∈ registry ->
      name <> lower_name /\ name <> class_name) ->
  get (PyStr name) s
  = (Raise (ValueError ("Unknown optimizer name: " +:+ name +:+ ".")), s).
Proof.
  intros Hother. unfold get.
  repeat (rewrite name_in_false;
          [|eapply proj1, Hother; unfold registry; repeat constructor
           |eapply proj2, Hother; unfold registry; repeat constructor]).
  reflexivity.
Qed.

End Registry.

Lemma get_other_name_witness :
  get (PyStr "not_an_optimizer") Scenario.bare_R
  = (Raise (ValueError "Unknown optimizer name: not_an_optimizer."),
     Scenario.bare_R).
Proof.
  refine (get_other_name Scenario.bare_R "not_an_optimizer" _).
  intros l c o Hin. unfold registry in Hin.
  repeat (apply elem_of_cons in Hin as [[= -> -> ->]|Hin];
          [split; discriminate|]).
  now apply elem_of_nil in Hin.
Defined.

Lemma get_spelled_name_witness :
  get (PyStr "adam") Scenario.bare_R
  = (Return 0, State [[1]; [1]]%R [Adam 0.001 (-1)]%R) /\
  get (PyStr "Adam") Scenario.bare_R
  = (Return 0, State [[1]; [1]]%R [Adam 0.001 (-1)]%R).
Proof.
  assert ((("adam", "Adam", Adam default_lr default_clip)
           : string * string * optimizer R) ∈ registry) as Hin
    by (unfold registry; repeat constructor).
  split.
  - exact (get_spelled_name Scenario.bare_R "adam" "Adam" _ "adam" Hin
             (or_introl eq_refl)).
  - exact (get_spelled_name Scenario.bare_R "adam" "Adam" _ "Adam" Hin
             (or_intror eq_refl)).
Defined.

(** ** [SGD.update] *)

Section SGD_update.

Context {F : Type} `{Scalar F}.
Implicit Types s : state F.

Lemma length_npdl_clip (g : ndarray F) boundary :
  length (npdl_clip g boundary) = length g.
Proof.
  unfold npdl_clip, np_clip. destruct (fpositive boundary); [|done].
  apply length_map.
Qed.

Lemma inplace_same_shape op (a b : ndarray F) :
  length a = length b -> inplace op a b = Some (zip_with op a b).
Proof. intros Hlen. unfold inplace. now rewrite decide_True. Qed.

Lemma broadcast_same_shape op (a b : ndarray F) :
  length a = length b -> broadcast op a b = Some (zip_with op a b).
Proof. intros Hlen. unfold broadcast. now rewrite decide_True. Qed.

(** One pass of the loop body: [p -= self.lr * npdl_clip(g, self.clip)]. *)
Lemma SGD_body s lr clip p g pv gv :
  arrays s !! p = Some pv -> arrays s !! g = Some gv ->
  shape pv = shape gv ->
  (gv <- load g ;;
   pv <- load p ;;
   pv' <- numpy (inplace fsub pv (scale lr (npdl_clip gv clip))) ;;
   store p pv') s
  = (Return tt,
     State (<[p := zip_with fsub pv (scale lr (npdl_clip gv clip))]> (arrays s))
       (objects s)).
Proof.
  intros Hp Hg Hshape.
  rewrite (bind_Return _ _ _ _ _ (load_Some _ _ _ Hg)).
  rewrite (bind_Return _ _ _ _ _ (load_Some _ _ _ Hp)).
  rewrite inplace_same_shape.
  - unfold numpy, bind at 1, ret. apply store_lt. eapply lookup_lt_Some, Hp.
  - unfold scale. rewrite length_map, length_npdl_clip. exact Hshape.
Qed.

Lemma SGD_loop lr clip params : forall grads s,
  NoDup params -> separate params grads -> paired s params grads ->
  exists s',
    for_each (zip params grads) (fun '(p, g) =>
      gv <- load g ;;
      pv <- load p ;;
      pv' <- numpy (inplace fsub pv (scale lr (npdl_clip gv clip))) ;;
      store p pv') s = (Return tt, s') /\
    objects s' = objects s /\
    length (arrays s') = length (arrays s) /\
    (forall l, l ∉ take (length grads) params ->
               arrays s' !! l = arrays s !! l) /\
    (forall i p g pv gv,
        params !! i = Some p -> grads !! i = Some g ->
        arrays s !! p = Some pv -> arrays s !! g = Some gv ->
        arrays s' !! p
        = Some (zip_with fsub pv (scale lr (npdl_clip gv clip)))).
Proof.
  induction params as [|p ps IH]; intros grads s Hnd Hsep Hpaired.
  { exists s. simpl. repeat split; auto. intros i p g pv gv Hp. discriminate. }
  destruct grads as [|g gs].
  { exists s. simpl. repeat split; auto.
    intros i p' g pv gv _ Hg. discriminate. }
  apply NoDup_cons in Hnd as [Hp_ps Hnd].
  destruct (Hpaired 0 p g eq_refl eq_refl) as (pv & gv & Hp & Hg & Hshape).
  set (s1 := State (<[p := zip_with fsub pv (scale lr (npdl_clip gv clip))]>
                      (arrays s)) (objects s)).
  assert (forall l, l <> p -> arrays s1 !! l = arrays s !! l) as Hs1.
  { intros l Hl. simpl. apply list_lookup_insert_ne. congruence. }
  assert (forall i x, ps !! i = Some x -> x <> p) as Hps.
  { intros i x Hx ->. apply Hp_ps. eapply list_elem_of_lookup_2, Hx. }
  assert (forall i x, gs !! i = Some x -> x <> p) as Hgs.
  { intros i x Hx ->. apply (Hsep p); [right|left].
    eapply list_elem_of_lookup_2, Hx. }
  destruct (IH gs s1) as (s' & Hrun & Hobj & Hlen & Hframe & Hval).
  - exact Hnd.
  - intros x Hx Hin. apply (Hsep x); now right.
  - intros i p' g' Hp' Hg'.
    destruct (Hpaired (S i) p' g' Hp' Hg') as (pv' & gv' & ? & ? & ?).
    exists pv', gv'. rewrite !Hs1; eauto.
  - exists s'. split; [|split; [|split; [|split]]].
    + simpl. erewrite bind_Return by (eapply SGD_body; eauto). exact Hrun.
    + now rewrite Hobj.
    + rewrite Hlen. simpl. apply length_insert.
    + intros l Hl. simpl in Hl. apply not_elem_of_cons in Hl as [Hne Hl].
      rewrite Hframe by exact Hl. now apply Hs1.
    + intros [|i] p' g' pv' gv' Hp' Hg' Hpv Hgv; simpl in Hp', Hg'.
      * injection Hp' as <-. injection Hg' as <-.
        rewrite Hp in Hpv. rewrite Hg in Hgv.
        injection Hpv as <-. injection Hgv as <-.
        rewrite Hframe.
        -- simpl. apply list_lookup_insert_eq. eapply lookup_lt_Some, Hp.
        -- intros Hin. apply elem_of_take in Hin as (j & Hj & _).
           now apply (Hps j p).
      * apply (Hval i p' g'); auto; rewrite Hs1; eauto.
Qed.

Lemma SGD_update_spec s self lr clip params grads :
  objects s !! self = Some (SGD lr clip) ->
  NoDup params -> separate params grads -> paired s params grads ->
  exists s',
    update self params grads s = (Return tt, s') /\
    objects s' = objects s /\
    length (arrays s') = length (arrays s) /\
    (forall l, l ∉ take (length grads) params ->
               arrays s' !! l = arrays s !! l) /\
    (forall i p g pv gv,
        params !! i = Some p -> grads !! i = Some g ->
        arrays s !! p = Some pv -> arrays s !! g = Some gv ->
        arrays s' !! p
        = Some (zip_with fsub pv (scale lr (npdl_clip gv clip)))).
Proof.
  intros Ho Hnd Hsep Hpaired. unfold update.
  rewrite (bind_Return _ _ _ _ _ (get_object_Some _ _ _ Ho)).
  unfold SGD_update.
  rewrite (bind_Return _ _ _ _ _ (get_object_Some _ _ _ Ho)).
  now apply SGD_loop.
Qed.

End SGD_update.

(** C10: on [p = 1.0], [g = 2.0], [lr = 0.1] with clipping off,
    [SGD.update] leaves [p = 0.8], over the reals and bit for bit in
    binary64.  In general, when no array is listed twice among the
    parameters, no gradient buffer is a parameter and paired arrays have one
    shape, the call returns normally having set every paired parameter to
    [p - lr * npdl_clip(g, clip)]; it creates no array and leaves the
    instance as it was. *)
Theorem SGD_update_applies_clipped_step :
  update 0 [0] [1] Scenario.sgd_R
  = (Return tt, State [[0.8]; [2]]%R [SGD 0.1 (-1)]%R) /\
  update 0 [0] [1] Scenario.sgd_b64
  = (Return tt, State [[0.8]; [2]]%float [SGD 0.1 (-1)]%float) /\
  forall (F : Type) (HF : Scalar F) (s : state F) self lr clip params grads,
    objects s !! self = Some (SGD lr clip) ->
    NoDup params -> separate params grads -> paired s params grads ->
    exists s',
      update self params grads s = (Return tt, s') /\
      objects s' = objects s /\
      length (arrays s') = length (arrays s) /\
      forall i p g pv gv,
        params !! i = Some p -> grads !! i = Some g ->
        arrays s !! p = Some pv -> arrays s !! g = Some gv ->
        arrays s' !! p
        = Some (zip_with fsub pv (scale lr (npdl_clip gv clip))).
Proof.
  split; [|split].
  - run_R. decide_R. run_R. close_R.
  - vm_compute. reflexivity.
  - intros F HF s self lr clip params grads Ho Hnd Hsep Hpaired.
    destruct (SGD_update_spec s self lr clip params grads)
      as (s' & Hrun & Hobj & Hlen & _ & Hval); auto.
    exists s'. auto.
Qed.

Lemma SGD_update_applies_clipped_step_witness :
  exists s',
    update 0 [0] [1] Scenario.sgd_R = (Return tt, s') /\
    arrays s' !! 0 = Some [0.8%R].
Proof.
  destruct (proj2 (proj2 SGD_update_applies_clipped_step) R _
              Scenario.sgd_R 0 0.1%R (-1)%R [0] [1])
    as (s' & Hrun & _ & _ & Hval).
  - reflexivity.
  - repeat constructor. apply not_elem_of_nil.
  - intros g Hg. apply list_elem_of_singleton in Hg as ->.
    intros Hin. apply list_elem_of_singleton in Hin. discriminate.
  - intros [|[|i]] p g [= <-]; intros [= <-].
    exists [1%R], [2%R]. repeat split.
  - exists s'. split; [exact Hrun|].
    rewrite (Hval 0 0 1 [1%R] [2%R]) by reflexivity.
    f_equal. run_R. decide_R. close_R.
Defined.

(** ** [Adagrad.update] *)

Section Adagrad_update.

Context {F : Type} `{Scalar F}.
Implicit Types s : state F.

Lemma Adagrad_body s epsilon lr c p g cv pv gv :
  arrays s !! c = Some cv -> arrays s !! p = Some pv ->
  arrays s !! g = Some gv ->
  c <> p -> g <> c ->
  shape cv = shape gv -> shape pv = shape gv ->
  (gv <- load g ;;
   cv <- load c ;;
   cv' <- numpy (inplace fadd cv (np_power2 gv)) ;;
   store c cv' ;;
   gv <- load g ;;
   cv <- load c ;;
   d <- numpy (broadcast fdiv (scale lr gv) (shift (np_sqrt cv) epsilon)) ;;
   pv <- load p ;;
   pv' <- numpy (inplace fsub pv d) ;;
   store p pv') s
  = (Return tt,
     State (<[p := Adagrad_param epsilon lr cv pv gv]>
              (<[c := Adagrad_cache cv gv]> (arrays s)))
       (objects s)).
Proof.
  intros Hc Hp Hg Hcp Hgc Hcg Hpg. unfold shape in *.
  assert (c < length (arrays s)) as Hc_lt by (eapply lookup_lt_Some, Hc).
  assert (p < length (arrays s)) as Hp_lt by (eapply lookup_lt_Some, Hp).
  rewrite (bind_Return _ _ _ _ _ (load_Some _ _ _ Hg)).
  rewrite (bind_Return _ _ _ _ _ (load_Some _ _ _ Hc)).
  rewrite inplace_same_shape
    by (unfold np_power2; now rewrite length_map).
  unfold numpy at 1, bind at 1, ret.
  rewrite (bind_Return _ _ _ _ _ (store_lt _ _ _ Hc_lt)).
  set (s1 := State (<[c := zip_with fadd cv (np_power2 gv)]> (arrays s))
               (objects s)).
  assert (arrays s1 !! g = Some gv) as Hg1.
  { simpl. rewrite list_lookup_insert_ne by congruence. exact Hg. }
  assert (arrays s1 !! c = Some (Adagrad_cache cv gv)) as Hc1.
  { simpl. now apply list_lookup_insert_eq. }
  assert (arrays s1 !! p = Some pv) as Hp1.
  { simpl. rewrite list_lookup_insert_ne by congruence. exact Hp. }
  rewrite (bind_Return _ _ _ _ _ (load_Some _ _ _ Hg1)).
  rewrite (bind_Return _ _ _ _ _ (load_Some _ _ _ Hc1)).
  assert (length (Adagrad_cache cv gv) = length gv) as Hlen.
  { unfold Adagrad_cache, np_power2.
    rewrite length_zip_with, length_map. lia. }
  rewrite broadcast_same_shape
    by (unfold scale, shift, np_sqrt; now rewrite !length_map, Hlen).
  unfold numpy at 1, bind at 1, ret.
  rewrite (bind_Return _ _ _ _ _ (load_Some _ _ _ Hp1)).
  rewrite inplace_same_shape.
  - unfold numpy, bind at 1, ret. rewrite store_lt; [reflexivity|].
    simpl. now rewrite length_insert.
  - unfold scale, shift, np_sqrt.
    rewrite length_zip_with, !length_map, Hlen. lia.
Qed.

Lemma Adagrad_loop epsilon lr cs : forall params grads s,
  NoDup (cs ++ params) ->
  (forall g, g ∈ grads -> g ∉ cs ++ params) ->
  tracked s cs params grads ->
  exists s',
    for_each (zip cs (zip params grads)) (fun '(c, (p, g)) =>
      gv <- load g ;;
      cv <- load c ;;
      cv' <- numpy (inplace fadd cv (np_power2 gv)) ;;
      store c cv' ;;
      gv <- load g ;;
      cv <- load c ;;
      d <- numpy (broadcast fdiv (scale lr gv) (shift (np_sqrt cv) epsilon)) ;;
      pv <- load p ;;
      pv' <- numpy (inplace fsub pv d) ;;
      store p pv') s = (Return tt, s') /\
    objects s' = objects s /\
    length (arrays s') = length (arrays s) /\
    (forall l, l ∉ cs ++ params -> arrays s' !! l = arrays s !! l) /\
    (forall i c p g cv pv gv,
        cs !! i = Some c -> params !! i = Some p -> grads !! i = Some g ->
        arrays s !! c = Some cv -> arrays s !! p = Some pv ->
        arrays s !! g = Some gv ->
        arrays s' !! c = Some (Adagrad_cache cv gv) /\
        arrays s' !! p = Some (Adagrad_param epsilon lr cv pv gv)).
Proof.
  induction cs as [|c cs IH]; intros params grads s Hnd Hsep Htracked.
  { exists s. simpl. repeat split; auto; intros; discriminate. }
  destruct params as [|p ps].
  { exists s. simpl. repeat split; auto; intros; discriminate. }
  destruct grads as [|g gs].
  { exists s. simpl. repeat split; auto; intros; discriminate. }
  destruct (Htracked 0 c p g eq_refl eq_refl eq_refl)
    as (cv & pv & gv & Hc & Hp & Hg & Hcg & Hpg).
  simpl in Hnd. apply NoDup_cons in Hnd as [Hc_fresh Hnd].
  apply NoDup_app in Hnd as (Hnd_cs & Hcs_ps & Hnd_ps).
  apply NoDup_cons in Hnd_ps as [Hp_fresh Hnd_ps].
  apply not_elem_of_app in Hc_fresh as [Hc_cs Hc_ps].
  apply not_elem_of_cons in Hc_ps as [Hcp Hc_ps].
  assert (g <> c /\ g <> p) as [Hgc Hgp].
  { specialize (Hsep g ltac:(left)). simpl in Hsep.
    apply not_elem_of_cons in Hsep as [? Hsep].
    apply not_elem_of_app in Hsep as [_ Hsep].
    apply not_elem_of_cons in Hsep as [? _]. auto. }
  set (s1 := State (<[p := Adagrad_param epsilon lr cv pv gv]>
                      (<[c := Adagrad_cache cv gv]> (arrays s))) (objects s)).
  assert (forall l, l <> c -> l <> p -> arrays s1 !! l = arrays s !! l) as Hs1.
  { intros l Hlc Hlp. simpl. rewrite !list_lookup_insert_ne by congruence.
    reflexivity. }
  assert (forall x, x ∈ cs -> x <> c /\ x <> p) as Hcs.
  { intros x Hx. split; intros ->; [auto|].
    apply (Hcs_ps p Hx). left. }
  assert (forall x, x ∈ ps -> x <> c /\ x <> p) as Hps.
  { intros x Hx. split; intros ->; auto. }
  assert (forall x, x ∈ gs -> x <> c /\ x <> p) as Hgs.
  { intros x Hx. specialize (Hsep x ltac:(now right)). simpl in Hsep.
    apply not_elem_of_cons in Hsep as [? Hsep].
    apply not_elem_of_app in Hsep as [_ Hsep].
    apply not_elem_of_cons in Hsep as [? _]. auto. }
  destruct (IH ps gs s1) as (s' & Hrun & Hobj & Hlen & Hframe & Hval).
  - apply NoDup_app. repeat split; auto.
    intros x Hx Hin. apply (Hcs_ps x Hx). now right.
  - intros x Hx. specialize (Hsep x ltac:(now right)). simpl in Hsep.
    apply not_elem_of_cons in Hsep as [_ Hsep].
    apply not_elem_of_app in Hsep as [Hx_cs Hx_ps].
    apply not_elem_of_cons in Hx_ps as [_ Hx_ps].
    now apply not_elem_of_app.
  - intros i c' p' g' Hc' Hp' Hg'.
    destruct (Htracked (S i) c' p' g' Hc' Hp' Hg')
      as (cv' & pv' & gv' & ? & ? & ? & ? & ?).
    apply list_elem_of_lookup_2 in Hc', Hp', Hg'.
    exists cv', pv', gv'.
    rewrite !Hs1 by first [now apply Hcs|now apply Hps|now apply Hgs].
    repeat split; assumption.
  - exists s'. split; [|split; [|split; [|split]]].
    + simpl. erewrite bind_Return by (eapply Adagrad_body; eauto). exact Hrun.
    + now rewrite Hobj.
    + rewrite Hlen. simpl. now rewrite !length_insert.
    + intros l Hl. simpl in Hl. apply not_elem_of_cons in Hl as [Hlc Hl].
      apply not_elem_of_app in Hl as [Hl_cs Hl_ps].
      apply not_elem_of_cons in Hl_ps as [Hlp Hl_ps].
      rewrite Hframe by now apply not_elem_of_app. now apply Hs1.
    + intros [|i] c' p' g' cv' pv' gv' Hc' Hp' Hg' Hcv Hpv Hgv;
        simpl in Hc', Hp', Hg'.
      * injection Hc' as <-. injection Hp' as <-. injection Hg' as <-.
        rewrite Hc in Hcv. rewrite Hp in Hpv. rewrite Hg in Hgv.
        injection Hcv as <-. injection Hpv as <-. injection Hgv as <-.
        assert (p ∉ cs) as Hp_cs.
        { intros Hin. apply (Hcs_ps p Hin). left. }
        rewrite (Hframe c), (Hframe p) by now apply not_elem_of_app.
        simpl. split.
        -- rewrite list_lookup_insert_ne by congruence.
           apply list_lookup_insert_eq. eapply lookup_lt_Some, Hc.
        -- apply list_lookup_insert_eq. rewrite length_insert.
           eapply lookup_lt_Some, Hp.
      * pose proof (list_elem_of_lookup_2 _ _ _ Hc') as Hc_in.
        pose proof (list_elem_of_lookup_2 _ _ _ Hp') as Hp_in.
        pose proof (list_elem_of_lookup_2 _ _ _ Hg') as Hg_in.
        apply (Hval i c' p' g'); auto; rewrite Hs1; auto;
          first [now apply Hcs|now apply Hps|now apply Hgs].
Qed.

Lemma Adagrad_update_spec s self epsilon lr clip cs params grads :
  objects s !! self = Some (Adagrad epsilon lr clip (Some cs)) ->
  NoDup (cs ++ params) ->
  (forall g, g ∈ grads -> g ∉ cs ++ params) ->
  tracked s cs params grads ->
  exists s',
    update self params grads s = (Return tt, s') /\
    objects s' = objects s /\
    length (arrays s') = length (arrays s) /\
    (forall l, l ∉ cs ++ params -> arrays s' !! l = arrays s !! l) /\
    (forall i c p g cv pv gv,
        cs !! i = Some c -> params !! i = Some p -> grads !! i = Some g ->
        arrays s !! c = Some cv -> arrays s !! p = Some pv ->
        arrays s !! g = Some gv ->
        arrays s' !! c = Some (Adagrad_cache cv gv) /\
        arrays s' !! p = Some (Adagrad_param epsilon lr cv pv gv)).
Proof.
  intros Ho Hnd Hsep Htracked. unfold update.
  rewrite (bind_Return _ _ _ _ _ (get_object_Some _ _ _ Ho)).
  unfold Adagrad_update.
  rewrite (bind_Return _ _ _ _ _ (get_object_Some _ _ _ Ho)).
  unfold bind at 1, ret. now apply Adagrad_loop.
Qed.

(** The shapes are as before, so the next call finds what this one found. *)
Lemma Adagrad_update_keeps_tracked s self epsilon lr clip cs params grads s' :
  objects s !! self = Some (Adagrad epsilon lr clip (Some cs)) ->
  NoDup (cs ++ params) ->
  (forall g, g ∈ grads -> g ∉ cs ++ params) ->
  tracked s cs params grads ->
  update self params grads s = (Return tt, s') ->
  tracked s' cs params grads.
Proof.
  intros Ho Hnd Hsep Htracked Hrun.
  destruct (Adagrad_update_spec s self epsilon lr clip cs params grads
              Ho Hnd Hsep Htracked)
    as (s'' & Hrun' & _ & _ & Hframe & Hval).
  rewrite Hrun in Hrun'. injection Hrun' as <-.
  intros i c p g Hc Hp Hg.
  destruct (Htracked i c p g Hc Hp Hg)
    as (cv & pv & gv & Hcv & Hpv & Hgv & Hcg & Hpg).
  destruct (Hval i c p g cv pv gv Hc Hp Hg Hcv Hpv Hgv) as [Hc' Hp'].
  exists (Adagrad_cache cv gv), (Adagrad_param epsilon lr cv pv gv), gv.
  assert (length (Adagrad_cache cv gv) = length gv) as Hlen.
  { unfold Adagrad_cache, np_power2. unfold shape in *.
    rewrite length_zip_with, length_map. lia. }
  split; [exact Hc'|]. split; [exact Hp'|]. split.
  - rewrite Hframe; [exact Hgv|].
    apply Hsep. eapply list_elem_of_lookup_2, Hg.
  - unfold shape in *. split; [exact Hlen|].
    unfold Adagrad_param, scale, shift, np_sqrt.
    rewrite !length_zip_with, !length_map, Hlen. lia.
Qed.

End Adagrad_update.

(** The accumulators over the reals. *)

Lemma Adagrad_cache_ge (cv gv : list R) :
  length cv = length gv -> Forall2 Rle cv (Adagrad_cache cv gv).
Proof.
  revert gv. induction cv as [|x cv IH]; intros [|g gv] Hlen;
    try discriminate; [constructor|].
  unfold Adagrad_cache, np_power2. simpl. constructor.
  - pose proof (Rle_0_sqr g) as Hsq. unfold Rsqr in Hsq. lra.
  - apply IH. now injection Hlen.
Qed.

Lemma rate_antitone lr epsilon x y :
  (0 <= lr)%R -> (0 < epsilon)%R -> (x <= y)%R ->
  (rate lr epsilon y <= rate lr epsilon x)%R.
Proof.
  intros Hlr Heps Hxy. unfold rate, Rdiv.
  pose proof (sqrt_pos x) as Hx. pose proof (sqrt_pos y) as Hy.
  pose proof (sqrt_le_1_alt x y Hxy) as Hsqrt.
  apply Rmult_le_compat_l; [exact Hlr|].
  apply Rinv_le_contravar; lra.
Qed.

(** An entry of the updated parameter is the old entry minus the gradient
    entry times the rate at the updated accumulator: epsilon is added to
    the square root, not under it. *)
Lemma Adagrad_param_entry epsilon lr (cv pv gv : list R) j x g c' :
  pv !! j = Some x -> gv !! j = Some g ->
  Adagrad_cache cv gv !! j = Some c' ->
  Adagrad_param epsilon lr cv pv gv !! j
  = Some (x - rate lr epsilon c' * g)%R.
Proof.
  intros Hx Hg Hc'. unfold Adagrad_param.
  rewrite lookup_zip_with, Hx. simpl.
  rewrite lookup_zip_with. unfold scale, shift, np_sqrt.
  rewrite !list_lookup_fmap, Hg, Hc'. simpl.
  f_equal. unfold rate, Rdiv. ring.
Qed.

(** C9: a call of [Adagrad.update] on an instance that has its cache adds
    [g**2] to each accumulator in place, so the accumulator the next call
    reads is entry by entry at least what it was, and the rate
    [lr / (sqrt(c) + epsilon)] at the new accumulator is entry by entry at
    most the rate at the old one; each parameter entry moves by the
    gradient entry times the new rate.  The instance and the shapes are as
    before, so the same holds of the call after. *)
Theorem Adagrad_cache_grows (s : state R) self epsilon lr clip cs params grads :
  objects s !! self = Some (Adagrad epsilon lr clip (Some cs)) ->
  (0 <= lr)%R -> (0 < epsilon)%R ->
  NoDup (cs ++ params) ->
  (forall g, g ∈ grads -> g ∉ cs ++ params) ->
  tracked s cs params grads ->
  exists s',
    update self params grads s = (Return tt, s') /\
    objects s' = objects s /\
    tracked s' cs params grads /\
    forall i c p g cv pv gv,
      cs !! i = Some c -> params !! i = Some p -> grads !! i = Some g ->
      arrays s !! c = Some cv -> arrays s !! p = Some pv ->
      arrays s !! g = Some gv ->
      exists cv' pv',
        arrays s' !! c = Some cv' /\ arrays s' !! p = Some pv' /\
        cv' = zip_with Rplus cv (np_power2 gv) /\
        Forall2 Rle cv cv' /\
        Forall2 (fun x x' => rate lr epsilon x' <= rate lr epsilon x)%R cv cv' /\
        forall j x g c',
          pv !! j = Some x -> gv !! j = Some g -> cv' !! j = Some c' ->
          pv' !! j = Some (x - rate lr epsilon c' * g)%R.
Proof.
  intros Ho Hlr Heps Hnd Hsep Htracked.
  destruct (Adagrad_update_spec s self epsilon lr clip cs params grads
              Ho Hnd Hsep Htracked)
    as (s' & Hrun & Hobj & _ & _ & Hval).
  exists s'. split; [exact Hrun|]. split; [exact Hobj|]. split.
  { eapply Adagrad_update_keeps_tracked; eauto. }
  intros i c p g cv pv gv Hc Hp Hg Hcv Hpv Hgv.
  destruct (Hval i c p g cv pv gv Hc Hp Hg Hcv Hpv Hgv) as [Hc' Hp'].
  destruct (Htracked i c p g Hc Hp Hg)
    as (cv0 & pv0 & gv0 & Hcv0 & _ & Hgv0 & Hshape & _).
  rewrite Hcv in Hcv0. rewrite Hgv in Hgv0.
  injection Hcv0 as <-. injection Hgv0 as <-.
  exists (Adagrad_cache cv gv), (Adagrad_param epsilon lr cv pv gv).
  pose proof (Adagrad_cache_ge cv gv Hshape) as Hge.
  repeat split; auto.
  - eapply Forall2_impl; [exact Hge|]. intros x x' Hxx'.
    now apply rate_antitone.
  - intros j x g' c'. apply Adagrad_param_entry.
Qed.

Lemma Adagrad_cache_grows_witness :
  exists s',
    update 0 [0] [1] Scenario.adagrad_R = (Return tt, s') /\
    arrays s' !! 2 = Some [2%R] /\
    (rate 0.1 0.000001 2 <= rate 0.1 0.000001 1)%R.
Proof.
  destruct (Adagrad_cache_grows Scenario.adagrad_R 0 0.000001%R 0.1%R (-1)%R
              [2] [0] [1])
    as (s' & Hrun & _ & _ & Hval).
  - reflexivity.
  - lra.
  - lra.
  - repeat constructor; rewrite ?elem_of_cons, ?elem_of_nil; lia.
  - intros g Hg. apply list_elem_of_singleton in Hg as ->. simpl.
    rewrite !elem_of_cons, elem_of_nil. lia.
  - intros [|i] c p g [= <-] [= <-] [= <-].
    exists [1%R], [0.9%R], [1%R]. repeat split.
  - destruct (Hval 0 2 0 1 [1%R] [0.9%R] [1%R])
      as (cv' & pv' & Hc' & _ & -> & _ & Hrate & _); try reflexivity.
    exists s'. split; [exact Hrun|]. split.
    + rewrite Hc'. simpl. repeat f_equal. lra.
    + inversion Hrate as [|? ? ? ? Hhead _]; subst.
      replace 2%R with (1 + 1 * 1)%R by lra. exact Hhead.
Defined.

(** Two steps from a fresh instance, in binary64: the accumulator goes from
    0 to 1 to 2 and the steps shrink. *)
Example Adagrad_two_steps_b64 :
  (update 0 [0] [1] ;; update 0 [0] [1]) Scenario.adagrad_b64
  = (Return tt,
     State [[0.82928947188120983]; [1]; [2]]%float
       [Adagrad 1e-6 0.1 (-1) (Some [2%nat])]%float).
Proof. vm_compute. reflexivity. Qed.

(** ** Lists of unequal length *)

(** C3 as stated fails: with two parameters and one gradient,
    [SGD.update] raises nothing and updates the first parameter. *)
Lemma update_unequal_lengths_returns :
  length [0; 2] <> length [1] /\
  update 0 [0; 2] [1] Scenario.sgd_unequal_R
  = (Return tt, State [[0.8]; [2]; [1]]%R [SGD 0.1 (-1)]%R).
Proof.
  split; [discriminate|]. run_R. decide_R. run_R. close_R.
Qed.

Section Unequal_lengths.

Context {F : Type} `{Scalar F}.
Implicit Types s : state F.

Lemma zip_take_min {A B} (xs : list A) (ys : list B) :
  zip (take (length xs `min` length ys) xs)
      (take (length xs `min` length ys) ys)
  = zip xs ys.
Proof. apply zip_with_take_both'; lia. Qed.

Lemma take_min_length {A} (xs : list A) k :
  take (length xs `min` k) xs = take k xs.
Proof.
  destruct (Nat.le_ge_cases (length xs) k) as [Hle|Hge].
  - rewrite Nat.min_l by exact Hle. rewrite !take_ge; auto.
  - now rewrite Nat.min_r by exact Hge.
Qed.

(** C3, amended: lists of unequal length raise nothing of their own.
    [zip] pairs parameters and gradients up to the shorter length [n]:
    once the instance has its auxiliary arrays (always, for [SGD]) the call
    is the call on the first [n] parameters and gradients; whatever the
    outcome, an array that is neither one of the first [n] parameters nor
    one of the instance's own arrays is left as it was; and [SGD.update],
    and [Adagrad.update] on an instance that has its cache, return normally
    having updated the paired parameters. *)
Theorem update_pairs_up_to_shorter s self o params grads :
  objects s !! self = Some o ->
  length params <> length grads ->
  let n := length params `min` length grads in
  (initialised o = true ->
   update self params grads s
   = update self (take n params) (take n grads) s) /\
  (forall r s' l,
      update self params grads s = (r, s') ->
      l < length (arrays s) ->
      l ∉ take n params -> l ∉ aux_arrays o ->
      arrays s' !! l = arrays s !! l) /\
  (forall lr clip,
      o = SGD lr clip ->
      NoDup params -> separate params grads -> paired s params grads ->
      exists s',
        update self params grads s = (Return tt, s') /\
        forall i p g pv gv,
          params !! i = Some p -> grads !! i = Some g ->
          arrays s !! p = Some pv -> arrays s !! g = Some gv ->
          arrays s' !! p
          = Some (zip_with fsub pv (scale lr (npdl_clip gv clip)))) /\
  (forall epsilon lr clip cs,
      o = Adagrad epsilon lr clip (Some cs) ->
      NoDup (cs ++ params) ->
      (forall g, g ∈ grads -> g ∉ cs ++ params) ->
      tracked s cs params grads ->
      exists s',
        update self params grads s = (Return tt, s') /\
        forall i c p g cv pv gv,
          cs !! i = Some c -> params !! i = Some p -> grads !! i = Some g ->
          arrays s !! c = Some cv -> arrays s !! p = Some pv ->
          arrays s !! g = Some gv ->
          arrays s' !! p = Some (Adagrad_param epsilon lr cv pv gv)).
Proof.
  intros Ho _ n. split; [|split; [|split]].
  - intros Hinit. unfold update.
    rewrite !(bind_Return _ _ _ _ _ (get_object_Some _ _ _ Ho)).
    destruct o as [| |? ? ? [vs|]|? ? ? [vs|]|? ? ? [cs|]| | | |];
      try discriminate Hinit; try reflexivity.
    + unfold SGD_update.
      rewrite !(bind_Return _ _ _ _ _ (get_object_Some _ _ _ Ho)).
      unfold n. now rewrite zip_take_min.
    + unfold Momentum_update.
      rewrite !(bind_Return _ _ _ _ _ (get_object_Some _ _ _ Ho)).
      unfold bind at 1 3, ret. unfold n. now rewrite zip_take_min.
    + unfold NesterovMomentum_update.
      rewrite !(bind_Return _ _ _ _ _ (get_object_Some _ _ _ Ho)).
      unfold bind at 1 3, ret. unfold n. now rewrite zip_take_min.
    + unfold Adagrad_update.
      rewrite !(bind_Return _ _ _ _ _ (get_object_Some _ _ _ Ho)).
      unfold bind at 1 3, ret. unfold n. now rewrite zip_take_min.
  - intros r s' l Hrun Hl Hparams Haux.
    destruct (update_frame _ _ _ _ _ _ _ Ho Hrun) as [[_ Hframe] _].
    apply Hframe; [exact Hl|].
    unfold written. intros [Hin|Hin].
    + apply Hparams. unfold n. now rewrite take_min_length.
    + apply Haux. destruct o as [| | | |? ? ? [cs|]| | | |]; now simpl.
  - intros lr clip -> Hnd Hsep Hpaired.
    destruct (SGD_update_spec s self lr clip params grads)
      as (s' & Hrun & _ & _ & _ & Hval); auto.
    exists s'. auto.
  - intros epsilon lr clip cs -> Hnd Hsep Htracked.
    destruct (Adagrad_update_spec s self epsilon lr clip cs params grads)
      as (s' & Hrun & _ & _ & _ & Hval); auto.
    exists s'. split; [exact Hrun|].
    intros i c p g cv pv gv Hc Hp Hg Hcv Hpv Hgv.
    now apply (Hval i c p g cv pv gv).
Qed.

End Unequal_lengths.

Lemma update_pairs_up_to_shorter_witness :
  update 0 [0; 2] [1] Scenario.sgd_unequal_R
  = update 0 [0] [1] Scenario.sgd_unequal_R /\
  forall r s',
    update 0 [0; 2] [1] Scenario.sgd_unequal_R = (r, s') ->
    arrays s' !! 2 = Some [1%R].
Proof.
  destruct (update_pairs_up_to_shorter Scenario.sgd_unequal_R 0
              (SGD 0.1 (-1))%R [0; 2] [1] eq_refl)
    as (Htrunc & Hframe & _ & _).
  - discriminate.
  - split.
    + apply Htrunc. reflexivity.
    + intros r s' Hrun.
      rewrite (Hframe r s' 2 Hrun); [reflexivity|simpl; lia| |].
      * simpl. intros Hin. apply list_elem_of_singleton in Hin. discriminate.
      * apply not_elem_of_nil.
Defined.

(** ** [copy.deepcopy] and [get] on an instance *)

Section Deepcopy.

Context {F : Type} `{Scalar F}.
Implicit Types s : state F.

Lemma memo_lookup_Some memo l l' :
  memo_lookup memo l = Some l' -> (l, l') ∈ memo.
Proof.
  induction memo as [|[k v] memo IH]; simpl; [discriminate|].
  destruct (decide (k = l)) as [->|Hne].
  - intros [= ->]. left.
  - intros Hl. right. auto.
Qed.

(** Copying the arrays of an attribute: every copy is an array that did not
    exist when [deepcopy] started (the store had [n0] arrays then), holding
    what the original holds; nothing that existed is written. *)
Lemma deepcopy_arrays_spec (n0 : nat) : forall ls memo s,
  n0 <= length (arrays s) ->
  (forall l, l ∈ ls -> l < n0) ->
  Forall (fun kv => kv.1 < n0 /\ n0 <= kv.2 < length (arrays s) /\
                    arrays s !! kv.2 = arrays s !! kv.1) memo ->
  exists ls' news,
    deepcopy_arrays ls memo s
    = (Return ls', State (arrays s ++ news) (objects s)) /\
    length ls' = length ls /\
    forall i l l',
      ls !! i = Some l -> ls' !! i = Some l' ->
      n0 <= l' < length (arrays s ++ news) /\
      (arrays s ++ news) !! l' = arrays s !! l.
Proof.
  induction ls as [|l ls IH]; intros memo s Hn0 Hls Hmemo.
  { exists [], []. simpl. rewrite app_nil_r. destruct s.
    repeat split; intros; discriminate. }
  assert (l < n0) as Hl by (apply Hls; left).
  assert (forall x, x ∈ ls -> x < n0) as Hls' by (intros x Hx; apply Hls; now right).
  simpl. destruct (memo_lookup memo l) as [l'|] eqn:Hmemo_l.
  - destruct (IH memo s Hn0 Hls' Hmemo) as (rest & news & Hrun & Hlen & Hcopy).
    exists (l' :: rest), news. split; [|split].
    + rewrite (bind_Return _ _ _ _ _ Hrun). reflexivity.
    + simpl. now rewrite Hlen.
    + intros [|i] x x' Hx Hx'; simpl in Hx, Hx'; [|eauto].
      injection Hx as <-. injection Hx' as <-.
      apply memo_lookup_Some in Hmemo_l.
      rewrite Forall_forall in Hmemo.
      destruct (Hmemo _ Hmemo_l) as (_ & [Hge Hlt] & Hsame). simpl in *.
      rewrite length_app. split; [lia|].
      rewrite lookup_app_l by lia. exact Hsame.
  - destruct (lookup_lt_is_Some_2 (arrays s) l ltac:(lia)) as [a Ha].
    rewrite (bind_Return _ _ _ _ _ (load_Some _ _ _ Ha)).
    unfold alloc, bind at 1.
    set (s1 := State (arrays s ++ [a]) (objects s)).
    destruct (IH ((l, length (arrays s)) :: memo) s1)
      as (rest & news & Hrun & Hlen & Hcopy).
    + simpl. rewrite length_app. lia.
    + exact Hls'.
    + constructor.
      * simpl. rewrite length_app. simpl. repeat split; try lia.
        rewrite lookup_app_r by lia. rewrite Nat.sub_diag.
        rewrite lookup_app_l by lia. now rewrite Ha.
      * eapply Forall_impl; [exact Hmemo|].
        intros [k v] (Hk & [Hv1 Hv2] & Hkv). simpl in *.
        rewrite length_app. simpl. repeat split; try lia.
        rewrite !lookup_app_l by lia. exact Hkv.
    + exists (length (arrays s) :: rest), (a :: news).
      simpl in Hrun. rewrite <- app_assoc in Hrun. simpl in Hrun.
      split; [|split].
      * rewrite (bind_Return _ _ _ _ _ Hrun). reflexivity.
      * simpl. now rewrite Hlen.
      * simpl in Hcopy. rewrite <- app_assoc in Hcopy. simpl in Hcopy.
        intros [|i] x x' Hx Hx'; simpl in Hx, Hx'.
        -- injection Hx as <-. injection Hx' as <-.
           rewrite length_app. simpl. split; [lia|].
           rewrite lookup_app_r by lia. rewrite Nat.sub_diag. simpl.
           now rewrite Ha.
        -- destruct (Hcopy i x x' Hx Hx') as [Hrange Hsame].
           split; [exact Hrange|]. rewrite Hsame.
           apply lookup_app_l. apply list_elem_of_lookup_2 in Hx.
           specialize (Hls' x Hx). lia.
Qed.

Lemma deepcopy_attr_spec attr s :
  (forall l, l ∈ default [] attr -> l < length (arrays s)) ->
  exists attr' news,
    deepcopy_attr attr s
    = (Return attr', State (arrays s ++ news) (objects s)) /\
    (attr' = None <-> attr = None) /\
    length (default [] attr') = length (default [] attr) /\
    forall i l l',
      default [] attr !! i = Some l -> default [] attr' !! i = Some l' ->
      length (arrays s) <= l' < length (arrays s ++ news) /\
      (arrays s ++ news) !! l' = arrays s !! l.
Proof.
  intros Halloc. destruct attr as [ls|]; simpl in *.
  - destruct (deepcopy_arrays_spec (length (arrays s)) ls [] s)
      as (ls' & news & Hrun & Hlen & Hcopy); auto.
    exists (Some ls'), news. split; [|split; [|split]]; auto.
    + now rewrite (bind_Return _ _ _ _ _ Hrun).
    + split; discriminate.
  - exists None, []. rewrite app_nil_r. destruct s.
    repeat split; intros; discriminate.
Qed.

Lemma deepcopy_spec s orig o :
  objects s !! orig = Some o ->
  (forall l, l ∈ aux_arrays o -> l < length (arrays s)) ->
  exists o' news,
    deepcopy orig s
    = (Return (length (objects s)),
       State (arrays s ++ news) (objects s ++ [o'])) /\
    forget_aux o' = forget_aux o /\
    initialised o' = initialised o /\
    length (aux_arrays o') = length (aux_arrays o) /\
    forall i l l',
      aux_arrays o !! i = Some l -> aux_arrays o' !! i = Some l' ->
      length (arrays s) <= l' < length (arrays s ++ news) /\
      (arrays s ++ news) !! l' = arrays s !! l.
Proof.
  intros Ho Halloc. unfold deepcopy.
  rewrite (bind_Return _ _ _ _ _ (get_object_Some _ _ _ Ho)).
  destruct o as [| |m lr c attr|m lr c attr|e lr c attr| | | |];
    try (eexists _, []; rewrite app_nil_r; unfold new_object;
         repeat split; intros; discriminate).
  all: destruct (deepcopy_attr_spec attr s)
         as (attr' & news & Hrun & Hnone & Hlen & Hcopy);
       [intros l Hl; apply Halloc; destruct attr; exact Hl|].
  all: eexists _, news; rewrite (bind_Return _ _ _ _ _ Hrun);
       unfold new_object; simpl.
  all: split; [reflexivity|].
  all: split; [reflexivity|].
  all: split; [destruct attr, attr'; try reflexivity;
               destruct Hnone as [Hn1 Hn2];
               first [discriminate (Hn1 eq_refl)|discriminate (Hn2 eq_refl)]|].
  all: destruct attr, attr'; simpl in *; split; assumption.
Qed.

Lemma written_elem (o : optimizer F) params grads l :
  written o params grads l -> l ∈ params \/ l ∈ aux_arrays o.
Proof.
  intros [Hin|Hin].
  - left. apply elem_of_take in Hin as (i & Hi & _).
    eapply list_elem_of_lookup_2, Hi.
  - right. destruct o as [| | | |? ? ? [cs|]| | | |]; now simpl in *.
Qed.

(** C8: [get] on an instance returns a new instance (another location)
    with the same configuration whose auxiliary arrays are new arrays
    holding what the original's hold; the original and every array that
    existed are as they were.  A later [update] of the copy leaves the
    original instance and its arrays as they were, and a later [update] of
    the original leaves the copy and its arrays as they were, provided the
    arrays of the one are not handed to the other as parameters. *)
Theorem get_instance_is_independent_copy s orig o :
  objects s !! orig = Some o ->
  (forall l, l ∈ aux_arrays o -> l < length (arrays s)) ->
  exists copy o' s1,
    get (PyOptimizer orig) s = (Return copy, s1) /\
    copy <> orig /\
    objects s1 !! orig = Some o /\
    objects s1 !! copy = Some o' /\
    forget_aux o' = forget_aux o /\
    initialised o' = initialised o /\
    length (aux_arrays o') = length (aux_arrays o) /\
    (forall l, l < length (arrays s) -> arrays s1 !! l = arrays s !! l) /\
    (forall i l l',
        aux_arrays o !! i = Some l -> aux_arrays o' !! i = Some l' ->
        length (arrays s) <= l' < length (arrays s1) /\
        arrays s1 !! l' = arrays s !! l) /\
    (forall params grads r s2,
        (forall p, p ∈ params -> p ∉ aux_arrays o) ->
        update copy params grads s1 = (r, s2) ->
        objects s2 !! orig = Some o /\
        forall l, l ∈ aux_arrays o -> arrays s2 !! l = arrays s !! l) /\
    (forall params grads r s2,
        (forall p, p ∈ params -> p ∉ aux_arrays o') ->
        update orig params grads s1 = (r, s2) ->
        objects s2 !! copy = Some o' /\
        forall l, l ∈ aux_arrays o' -> arrays s2 !! l = arrays s1 !! l).
Proof.
  intros Ho Halloc.
  destruct (deepcopy_spec s orig o Ho Halloc)
    as (o' & news & Hrun & Hconfig & Hinit & Hlen & Hcopy).
  pose proof (lookup_lt_Some _ _ _ Ho) as Horig.
  set (s1 := State (arrays s ++ news) (objects s ++ [o'])) in *.
  assert (objects s1 !! orig = Some o) as Ho1
    by (simpl; now apply lookup_app_l_Some).
  assert (objects s1 !! length (objects s) = Some o') as Ho'.
  { simpl. rewrite lookup_app_r by lia. now rewrite Nat.sub_diag. }
  assert (forall l, l < length (arrays s) -> arrays s1 !! l = arrays s !! l)
    as Hkeep by (intros l Hl; simpl; now apply lookup_app_l).
  assert (forall l', l' ∈ aux_arrays o' ->
                     length (arrays s) <= l' < length (arrays s1)) as Hnew.
  { intros l' Hl'. apply list_elem_of_lookup in Hl' as [i Hi].
    destruct (lookup_lt_is_Some_2 (aux_arrays o) i) as [l Hl].
    - rewrite <- Hlen. eapply lookup_lt_Some, Hi.
    - apply (Hcopy i l l' Hl Hi). }
  exists (length (objects s)), o', s1.
  split; [exact Hrun|]. split; [lia|].
  do 6 (split; [assumption|]). split; [exact Hcopy|]. split.
  - intros params grads r s2 Hparams Hupd.
    destruct (update_frame _ _ _ _ _ _ _ Ho' Hupd) as [[_ Harr] [_ Hobj]].
    split.
    + rewrite Hobj; [exact Ho1|simpl; rewrite length_app; lia|lia].
    + intros l Hl. pose proof (Halloc l Hl) as Hlt.
      rewrite Harr; [now apply Hkeep|simpl; rewrite length_app; lia|].
      intros Hw. apply written_elem in Hw as [Hin|Hin].
      * now apply (Hparams l).
      * apply Hnew in Hin. lia.
  - intros params grads r s2 Hparams Hupd.
    destruct (update_frame _ _ _ _ _ _ _ Ho1 Hupd) as [[_ Harr] [_ Hobj]].
    split.
    + rewrite Hobj; [exact Ho'|simpl; rewrite length_app; simpl; lia|lia].
    + intros l' Hl'. pose proof (Hnew l' Hl') as Hrange.
      apply Harr; [lia|].
      intros Hw. apply written_elem in Hw as [Hin|Hin].
      * now apply (Hparams l').
      * apply Halloc in Hin. lia.
Qed.

End Deepcopy.

Lemma get_instance_is_independent_copy_witness :
  exists copy o' s1,
    get (PyOptimizer 0) Scenario.adagrad_R = (Return copy, s1) /\
    copy <> 0 /\
    objects s1 !! copy = Some o' /\
    forall r s2,
      update copy [0] [1] s1 = (r, s2) ->
      objects s2 !! 0 = Some (Adagrad 0.000001 0.1 (-1) (Some [2%nat]))%R /\
      arrays s2 !! 2 = Some [1%R].
Proof.
  destruct (get_instance_is_independent_copy Scenario.adagrad_R 0
              (Adagrad 0.000001 0.1 (-1) (Some [2%nat]))%R eq_refl)
    as (copy & o' & s1 & Hget & Hne & _ & Ho' & _ & _ & _ & _ & _ & Hcopy & _).
  - intros l Hl. apply list_elem_of_singleton in Hl as ->. simpl. lia.
  - exists copy, o', s1. do 3 (split; [assumption|]).
    intros r s2 Hupd.
    destruct (Hcopy [0] [1] r s2) as [Hobj Harr]; [|exact Hupd|].
    + intros p Hp. apply list_elem_of_singleton in Hp as ->. simpl.
      rewrite list_elem_of_singleton. discriminate.
    + split; [exact Hobj|]. rewrite Harr; [reflexivity|]. simpl.
      now apply list_elem_of_singleton.
Defined.

(** The copy is a working optimizer of its own: resolving the instance and
    stepping the copy moves the parameter and the copy's accumulator
    (location 3) and leaves the original's accumulator (location 2). *)
Example get_then_update_copy_b64 :
  (copy <- get (PyOptimizer 0) ;; update copy [0] [1])
    Scenario.adagrad_stepped_b64
  = (Return tt,
     State [[0.82928937188130991]; [1]; [1]; [2]]%float
       [Adagrad 1e-6 0.1 (-1) (Some [2%nat]);
        Adagrad 1e-6 0.1 (-1) (Some [3%nat])]%float).
Proof. vm_compute. reflexivity. Qed.

(** * Further properties of the code *)

(** ** [__str__] and [get] *)

Section Names.

Context {F : Type} `{Scalar F}.
Implicit Types s : state F.

(** The name [__str__] gives for an instance of one of the eight optimizer
    classes is a name [get] accepts, and [get] answers it with a new
    instance of that class built from the default arguments; the name of
    the base class is not accepted. *)
Theorem get_of_class_name s (o : optimizer F) :
  match o with
  | Optimizer _ _ =>
      get (PyStr (__str__ o)) s
      = (Raise (ValueError "Unknown optimizer name: Optimizer."), s)
  | _ =>
      exists lower_name o',
        (lower_name, __str__ o, o') ∈ registry /\
        __str__ o' = __str__ o /\
        get (PyStr (__str__ o)) s
        = (Return (length (objects s)), State (arrays s) (objects s ++ [o']))
  end.
Proof.
  destruct o; [reflexivity|..]; eexists _, _;
    (split; [unfold registry; repeat constructor|split; reflexivity]).
Qed.

Lemma load_inv s l r s' : load l s = (r, s') -> s' = s.
Proof. unfold load. destruct (arrays s !! l); now intros [= _ <-]. Qed.

Lemma get_object_inv s l r s' : get_object l s = (r, s') -> s' = s.
Proof. unfold get_object. destruct (objects s !! l); now intros [= _ <-]. Qed.

(** Copying arrays only appends arrays. *)
Lemma deepcopy_arrays_appends ls : forall memo s r s',
  deepcopy_arrays ls memo s = (r, s') ->
  objects s' = objects s /\ exists news, arrays s' = arrays s ++ news.
Proof.
  induction ls as [|l ls IH]; intros memo s r s'; simpl.
  { intros [= _ <-]. split; [done|]. exists []. now rewrite app_nil_r. }
  destruct (memo_lookup memo l) as [l'|]; intros Hrun.
  - destruct (bind_inv _ _ _ _ _ Hrun)
      as [(rest & s1 & H1 & H2)|[(e & H1 & _)|[H1 _]]];
      [injection H2 as _ <-| |]; eapply IH, H1.
  - destruct (bind_inv _ _ _ _ _ Hrun)
      as [(a & s1 & H1 & H2)|[(e & H1 & _)|[H1 _]]].
    + apply load_inv in H1 as ->. unfold alloc, bind at 1 in H2.
      destruct (bind_inv _ _ _ _ _ H2)
        as [(rest & s2 & H3 & H4)|[(e & H3 & _)|[H3 _]]];
        [injection H4 as _ <-| |];
        (apply IH in H3 as [Hobj [news Harr]]; simpl in *;
         split; [exact Hobj|]; exists (a :: news);
         rewrite Harr, <- app_assoc; reflexivity).
    + apply load_inv in H1 as ->. split; [done|]. exists [].
      now rewrite app_nil_r.
    + apply load_inv in H1 as ->. split; [done|]. exists [].
      now rewrite app_nil_r.
Qed.

Lemma deepcopy_attr_appends attr s r s' :
  deepcopy_attr attr s = (r, s') ->
  objects s' = objects s /\ exists news, arrays s' = arrays s ++ news.
Proof.
  destruct attr as [ls|]; simpl.
  - intros Hrun.
    destruct (bind_inv _ _ _ _ _ Hrun)
      as [(rest & s1 & H1 & H2)|[(e & H1 & _)|[H1 _]]];
      [injection H2 as _ <-| |]; eapply deepcopy_arrays_appends, H1.
  - intros [= _ <-]. split; [done|]. exists []. now rewrite app_nil_r.
Qed.

(** [get] only adds to the store.  Whatever it is given and however it
    ends, the arrays and instances that existed are where and what they
    were; when it returns, what it returns is the one instance it has
    added, and no instance is added otherwise. *)
Theorem get_only_adds s (optimizer : pyvalue) :
  let '(r, s') := get optimizer s in
  (exists news, arrays s' = arrays s ++ news) /\
  match r with
  | Return l => l = length (objects s) /\
                exists o', objects s' = objects s ++ [o']
  | _ => objects s' = objects s
  end.
Proof.
  destruct optimizer as [name|l|class_name]; unfold get.
  - repeat (destruct (name_in name _);
            [simpl; split; [exists []; now rewrite app_nil_r|];
             split; [reflexivity|]; eexists; reflexivity|]).
    simpl. split; [exists []; now rewrite app_nil_r|reflexivity].
  - destruct (deepcopy l s) as [r s'] eqn:Hrun. unfold deepcopy in Hrun.
    destruct (bind_inv _ _ _ _ _ Hrun)
      as [(o & s1 & H1 & H2)|[(e & H1 & ->)|[H1 ->]]].
    + apply get_object_inv in H1 as ->.
      destruct o as [| |m lr c attr|m lr c attr|e lr c attr| | | |];
        try (injection H2 as <- <-; simpl;
             split; [exists []; now rewrite app_nil_r|];
             split; [reflexivity|]; eexists; reflexivity).
      all: destruct (bind_inv _ _ _ _ _ H2)
             as [(attr' & s2 & H3 & H4)|[(e' & H3 & ->)|[H3 ->]]];
           apply deepcopy_attr_appends in H3 as [Hobj Harr];
           [injection H4 as <- <-; simpl; rewrite Hobj;
            split; [exact Harr|]; split; [reflexivity|];
            eexists; reflexivity
           |split; [exact Harr|exact Hobj]
           |split; [exact Harr|exact Hobj]].
    + apply get_object_inv in H1 as ->.
      split; [exists []; now rewrite app_nil_r|reflexivity].
    + apply get_object_inv in H1 as ->.
      split; [exists []; now rewrite app_nil_r|reflexivity].
  - simpl. split; [exists []; now rewrite app_nil_r|reflexivity].
Qed.

End Names.

(** ** What [update] leaves alone *)

Section Lifecycle.

Context {F : Type} `{Scalar F}.
Implicit Types s : state F.

(** [update] writes the parameters it is given and, for [Adagrad], the
    accumulators of the instance, and nothing else: every other array that
    existed (the gradient buffers among them, clipped or not) and every
    other optimizer instance is as it was, and no array goes away. *)
Theorem update_leaves_the_rest s self o params grads r s' :
  objects s !! self = Some o ->
  update self params grads s = (r, s') ->
  length (arrays s) <= length (arrays s') /\
  (forall l, l < length (arrays s) -> l ∉ params -> l ∉ aux_arrays o ->
             arrays s' !! l = arrays s !! l) /\
  (forall l, l < length (objects s) -> l <> self ->
             objects s' !! l = objects s !! l).
Proof.
  intros Ho Hrun.
  destruct (update_frame _ _ _ _ _ _ _ Ho Hrun) as [[Hlen Harr] [_ Hobj]].
  split; [exact Hlen|]. split.
  - intros l Hl Hparams Haux. apply Harr; [exact Hl|].
    intros Hw. apply written_elem in Hw as [Hin|Hin]; auto.
  - intros l Hl Hne. apply Hobj; [exact Hl|congruence].
Qed.

Ltac untouched :=
  repeat first
    [ apply touches_ret | apply touches_raise | apply touches_fault
    | apply touches_load | apply touches_get_object | apply touches_numpy
    | apply touches_alloc | apply touches_zeros_like
    | apply touches_store; exact I
    | apply touches_bind; [|intros ?] ].

(** A loop that assigns no attribute leaves the instance as it is. *)
Lemma loop_keeps_instance {A} (xs : list A) (body : A -> M F unit)
    s self o r s' :
  (forall x, touches (F:=F) (fun _ => True) (fun _ => False) (body x)) ->
  objects s !! self = Some o ->
  for_each xs body s = (r, s') ->
  objects s' !! self = Some o.
Proof.
  intros Hbody Ho Hrun.
  destruct (touches_for_each (fun _ => True) (fun _ => False) xs body
              (fun x _ => Hbody x) s r s' Hrun) as [_ [_ Hobj]].
  rewrite Hobj; [exact Ho|eapply lookup_lt_Some, Ho|tauto].
Qed.

(** The first call creates the list of auxiliary arrays and assigns it;
    then the loop runs. *)
Lemma lazy_init_keeps_instance (mk : option (list loc) -> optimizer F)
    (k : list loc -> M F unit) xs s self o r s' :
  (forall vs, touches (F:=F) (fun _ => True) (fun _ => False) (k vs)) ->
  objects s !! self = Some o ->
  (vs <- (vs <- zeros_like xs ;; set_object self (mk (Some vs)) ;; ret vs) ;;
   k vs) s = (r, s') ->
  (objects s' !! self = Some o /\ r <> Return tt) \/
  (exists vs, objects s' !! self = Some (mk (Some vs))).
Proof.
  intros Hk Ho Hrun.
  pose proof (lookup_lt_Some _ _ _ Ho) as Hself.
  assert (forall r1 s1, zeros_like xs s = (r1, s1) ->
                        objects s1 !! self = Some o /\
                        self < length (objects s1)) as Hzeros.
  { intros r1 s1 Hz.
    destruct (touches_zeros_like (fun _ => True) (fun _ => False)
                _ _ _ _ Hz) as [_ [Hlen Hobj]].
    split; [rewrite Hobj; auto|lia]. }
  destruct (bind_inv _ _ _ _ _ Hrun)
    as [(vs & s2 & Hinit & Hloop)|[(e & Hinit & ->)|[Hinit ->]]].
  - right. exists vs.
    destruct (bind_inv _ _ _ _ _ Hinit)
      as [(vs' & s1 & Hz & Hset)|[(e & _ & ?)|[_ ?]]]; try discriminate.
    destruct (Hzeros _ _ Hz) as [_ Hlt].
    unfold set_object, bind at 1 in Hset.
    rewrite decide_True in Hset by exact Hlt.
    injection Hset as <- <-.
    destruct (Hk _ _ _ _ Hloop) as [_ [_ Hobj]].
    rewrite Hobj; simpl; [|now rewrite length_insert|tauto].
    now apply list_lookup_insert_eq.
  - left. split; [|discriminate].
    destruct (bind_inv _ _ _ _ _ Hinit)
      as [(vs' & s1 & Hz & Hset)|[(e' & Hz & _)|[Hz _]]];
      [|now apply (Hzeros _ _ Hz)|now apply (Hzeros _ _ Hz)].
    destruct (Hzeros _ _ Hz) as [_ Hlt].
    unfold set_object, bind at 1 in Hset.
    rewrite decide_True in Hset by exact Hlt. discriminate Hset.
  - left. split; [|discriminate].
    destruct (bind_inv _ _ _ _ _ Hinit)
      as [(vs' & s1 & Hz & Hset)|[(e' & Hz & ?)|[Hz _]]];
      [|discriminate|now apply (Hzeros _ _ Hz)].
    destruct (Hzeros _ _ Hz) as [_ Hlt].
    unfold set_object, bind at 1 in Hset.
    rewrite decide_True in Hset by exact Hlt. discriminate Hset.
Qed.

Ltac keep_by_loop Ho Hrun :=
  eapply loop_keeps_instance in Hrun; [|intros [? [? ?]]; untouched|exact Ho].

Ltac keep_by_init mk Ho Hrun :=
  match type of Hrun with
  | bind _ ?k _ = _ =>
      destruct (lazy_init_keeps_instance mk k _ _ _ _ _ _
                  ltac:(intros ?; apply touches_for_each;
                        intros [? [? ?]] _; untouched) Ho Hrun)
        as [[? ?]|[? ?]]
  end.

Ltac kept :=
  eexists; split; [eassumption|]; split; [reflexivity|];
  split; [intros Hi; simpl in Hi; first [discriminate Hi|reflexivity]
         |intros Hr; first [contradiction|reflexivity]].

(** [update] assigns nothing but the list of auxiliary arrays, and that
    once: the instance keeps its class and hyperparameters; an instance
    that has its auxiliary arrays, or whose class keeps none, is exactly
    what it was; and after a call that returns the instance has them. *)
Theorem update_keeps_configuration s self o params grads r s' :
  objects s !! self = Some o ->
  update self params grads s = (r, s') ->
  exists o',
    objects s' !! self = Some o' /\
    forget_aux o' = forget_aux o /\
    (initialised o = true -> o' = o) /\
    (r = Return tt -> initialised o' = true).
Proof.
  intros Ho Hrun. unfold update in Hrun.
  rewrite (bind_Return _ _ _ _ _ (get_object_Some _ _ _ Ho)) in Hrun.
  destruct o as [| |m lr c [vs|]|m lr c [vs|]|e lr c [cs|]| | | |];
    try (injection Hrun as <- <-; eexists; repeat split; eauto; discriminate).
  - unfold SGD_update in Hrun.
    rewrite (bind_Return _ _ _ _ _ (get_object_Some _ _ _ Ho)) in Hrun.
    eapply loop_keeps_instance in Hrun;
      [|intros [? ?]; untouched|exact Ho].
    kept.
  - unfold Momentum_update in Hrun.
    rewrite (bind_Return _ _ _ _ _ (get_object_Some _ _ _ Ho)) in Hrun.
    unfold bind at 1, ret in Hrun. keep_by_loop Ho Hrun.
    kept.
  - unfold Momentum_update in Hrun.
    rewrite (bind_Return _ _ _ _ _ (get_object_Some _ _ _ Ho)) in Hrun.
    keep_by_init (Momentum m lr c) Ho Hrun;
      kept.
  - unfold NesterovMomentum_update in Hrun.
    rewrite (bind_Return _ _ _ _ _ (get_object_Some _ _ _ Ho)) in Hrun.
    unfold bind at 1, ret in Hrun. keep_by_loop Ho Hrun.
    kept.
  - unfold NesterovMomentum_update in Hrun.
    rewrite (bind_Return _ _ _ _ _ (get_object_Some _ _ _ Ho)) in Hrun.
    keep_by_init (NesterovMomentum m lr c) Ho Hrun;
      kept.
  - unfold Adagrad_update in Hrun.
    rewrite (bind_Return _ _ _ _ _ (get_object_Some _ _ _ Ho)) in Hrun.
    unfold bind at 1, ret in Hrun. keep_by_loop Ho Hrun.
    kept.
  - unfold Adagrad_update in Hrun.
    rewrite (bind_Return _ _ _ _ _ (get_object_Some _ _ _ Ho)) in Hrun.
    keep_by_init (Adagrad e lr c) Ho Hrun;
      kept.
Qed.

Lemma bind_ret {A B} (a : A) (k : A -> M F B) s : bind (ret a) k s = k a s.
Proof. reflexivity. Qed.

(** Once an instance has [n] auxiliary arrays, a call is the call on the
    first [n] parameters and gradients: [zip] stops at the shortest of the
    three lists, so a parameter beyond the [n]-th is never updated. *)
Theorem update_stops_at_state_length s self o params grads :
  objects s !! self = Some o ->
  has_state o = true ->
  let n := length (aux_arrays o) in
  update self params grads s
  = update self (take n params) (take n grads) s.
Proof.
  intros Ho Hstate n.
  assert (forall vs : list loc,
             zip vs (zip (take (length vs) params) (take (length vs) grads))
             = zip vs (zip params grads)) as Hzip.
  { intros vs. rewrite <- zip_with_take. apply zip_with_take_r. }
  unfold update.
  rewrite !(bind_Return _ _ _ _ _ (get_object_Some _ _ _ Ho)).
  destruct o as [| |? ? ? [vs|]|? ? ? [vs|]|? ? ? [cs|]| | | |];
    try discriminate Hstate; subst n; simpl.
  - unfold Momentum_update.
    rewrite !(bind_Return _ _ _ _ _ (get_object_Some _ _ _ Ho)).
    rewrite !bind_ret. now rewrite Hzip.
  - unfold NesterovMomentum_update.
    rewrite !(bind_Return _ _ _ _ _ (get_object_Some _ _ _ Ho)).
    rewrite !bind_ret. now rewrite Hzip.
  - unfold Adagrad_update.
    rewrite !(bind_Return _ _ _ _ _ (get_object_Some _ _ _ Ho)).
    rewrite !bind_ret. now rewrite Hzip.
Qed.

End Lifecycle.

Lemma update_leaves_the_rest_witness :
  arrays (update 0 [0] [1] Scenario.sgd_clip_R).2 !! 1 = Some [2%R].
Proof.
  destruct (update_leaves_the_rest Scenario.sgd_clip_R 0 (SGD 0.1 0.5)%R
              [0] [1]
              (update 0 [0] [1] Scenario.sgd_clip_R).1
              (update 0 [0] [1] Scenario.sgd_clip_R).2
              eq_refl (surjective_pairing _))
    as (_ & Harr & _).
  rewrite Harr; [reflexivity|simpl; lia| |apply not_elem_of_nil].
  intros Hin. apply list_elem_of_singleton in Hin. discriminate.
Defined.

Lemma update_keeps_configuration_witness :
  exists o',
    objects (update 0 [0] [1] Scenario.momentum_R).2 !! 0 = Some o' /\
    forget_aux o' = (Momentum 0.9 0.1 (-1) None)%R.
Proof.
  destruct (update_keeps_configuration Scenario.momentum_R 0
              (Momentum 0.9 0.1 (-1) None)%R [0] [1]
              (update 0 [0] [1] Scenario.momentum_R).1
              (update 0 [0] [1] Scenario.momentum_R).2
              eq_refl (surjective_pairing _))
    as (o' & Ho' & Hconfig & _).
  exists o'. split; [exact Ho'|exact Hconfig].
Defined.

Lemma update_stops_at_state_length_witness :
  update 0 [0] [1] Scenario.momentum_empty_R
  = update 0 [] [] Scenario.momentum_empty_R.
Proof.
  exact (update_stops_at_state_length Scenario.momentum_empty_R 0
           (Momentum 0.9 0.1 (-1) (Some []))%R [0] [1] eq_refl eq_refl).
Defined.

(** In binary64: a first call with no parameters fixes the velocity list
    at length zero, and the next call, given a parameter and its gradient,
    returns without moving the parameter. *)
Example update_after_empty_call_b64 :
  (update 0 [] [] ;; update 0 [0] [1]) Scenario.momentum_b64
  = (Return tt,
     State [[1]; [1]]%float [Momentum 0.9 0.1 (-1) (Some [])]%float).
Proof. vm_compute. reflexivity. Qed.

(** ** [Momentum.update] and [NesterovMomentum.update] as they run *)

Section Velocity.

Context {F : Type} `{Scalar F}.
Implicit Types s : state F.

(** [[_zero(x.shape) for x in xs]] appends one zero array per element, in
    order, and returns their locations. *)
Lemma zeros_like_spec xs : forall s,
  allocated s xs ->
  exists news,
    zeros_like xs s
    = (Return (seq (length (arrays s)) (length xs)),
       State (arrays s ++ news) (objects s)) /\
    length news = length xs /\
    forall i x a,
      xs !! i = Some x -> arrays s !! x = Some a ->
      news !! i = Some (_zero (shape a)).
Proof.
  induction xs as [|x xs IH]; intros s Halloc.
  { exists []. simpl. rewrite app_nil_r. destruct s.
    repeat split; intros; discriminate. }
  destruct (lookup_lt_is_Some_2 (arrays s) x) as [a Ha].
  { apply Halloc. left. }
  set (s1 := State (arrays s ++ [_zero (shape a)]) (objects s)).
  destruct (IH s1) as (news & Hrun & Hlen & Hval).
  { intros l Hl. simpl. rewrite length_app. simpl.
    specialize (Halloc l ltac:(now right)). lia. }
  exists (_zero (shape a) :: news). split; [|split].
  - simpl. rewrite (bind_Return _ _ _ _ _ (load_Some _ _ _ Ha)).
    unfold alloc, bind at 1. fold s1.
    rewrite (bind_Return _ _ _ _ _ Hrun). unfold ret. simpl.
    rewrite length_app, <- app_assoc. simpl.
    now rewrite Nat.add_1_r.
  - simpl. now rewrite Hlen.
  - intros [|i] x' a' Hx' Ha'; simpl in Hx'.
    + injection Hx' as <-. rewrite Ha in Ha'. now injection Ha' as <-.
    + simpl. apply (Hval i x' a' Hx'). simpl.
      now apply lookup_app_l_Some.
Qed.

(** A loop over [zip(vs, params, grads)] whose body, on arrays of one
    shape, writes [step v p g] into [p] and nothing else. *)
Lemma param_loop (body : loc * (loc * loc) -> M F unit)
    (step : list F -> list F -> list F -> list F) :
  (forall s v p g vv pv gv,
      arrays s !! v = Some vv -> arrays s !! p = Some pv ->
      arrays s !! g = Some gv ->
      shape vv = shape gv -> shape pv = shape gv ->
      body (v, (p, g)) s
      = (Return tt, State (<[p := step vv pv gv]> (arrays s)) (objects s))) ->
  forall vs params grads s,
    NoDup params ->
    (forall v, v ∈ vs -> v ∉ params) ->
    separate params grads ->
    tracked s vs params grads ->
    exists s',
      for_each (zip vs (zip params grads)) body s = (Return tt, s') /\
      objects s' = objects s /\
      length (arrays s') = length (arrays s) /\
      (forall l, l ∉ params -> arrays s' !! l = arrays s !! l) /\
      (forall i v p g vv pv gv,
          vs !! i = Some v -> params !! i = Some p -> grads !! i = Some g ->
          arrays s !! v = Some vv -> arrays s !! p = Some pv ->
          arrays s !! g = Some gv ->
          arrays s' !! p = Some (step vv pv gv)).
Proof.
  intros Hbody. induction vs as [|v vs IH];
    intros params grads s Hnd Hvs Hsep Htracked.
  { exists s. simpl. repeat split; auto; intros; discriminate. }
  destruct params as [|p ps].
  { exists s. simpl. repeat split; auto; intros; discriminate. }
  destruct grads as [|g gs].
  { exists s. simpl. repeat split; auto; intros; discriminate. }
  destruct (Htracked 0 v p g eq_refl eq_refl eq_refl)
    as (vv & pv & gv & Hv & Hp & Hg & Hvg & Hpg).
  apply NoDup_cons in Hnd as [Hp_ps Hnd].
  set (s1 := State (<[p := step vv pv gv]> (arrays s)) (objects s)).
  assert (forall l, l <> p -> arrays s1 !! l = arrays s !! l) as Hs1.
  { intros l Hl. simpl. apply list_lookup_insert_ne. congruence. }
  assert (forall x, x ∈ vs -> x <> p) as Hvs'.
  { intros x Hx ->. apply (Hvs p); [now right|left]. }
  assert (forall x, x ∈ ps -> x <> p) as Hps.
  { intros x Hx ->. auto. }
  assert (forall x, x ∈ gs -> x <> p) as Hgs.
  { intros x Hx ->. apply (Hsep p); [now right|left]. }
  destruct (IH ps gs s1) as (s' & Hrun & Hobj & Hlen & Hframe & Hval).
  - exact Hnd.
  - intros x Hx Hin. apply (Hvs x); now right.
  - intros x Hx Hin. apply (Hsep x); now right.
  - intros i v' p' g' Hv' Hp' Hg'.
    destruct (Htracked (S i) v' p' g' Hv' Hp' Hg')
      as (vv' & pv' & gv' & ? & ? & ? & ? & ?).
    apply list_elem_of_lookup_2 in Hv', Hp', Hg'.
    exists vv', pv', gv'. rewrite !Hs1 by auto. repeat split; assumption.
  - exists s'. split; [|split; [|split; [|split]]].
    + simpl. erewrite bind_Return by (eapply Hbody; eauto). exact Hrun.
    + now rewrite Hobj.
    + rewrite Hlen. simpl. apply length_insert.
    + intros l Hl. apply not_elem_of_cons in Hl as [Hne Hl].
      rewrite Hframe by exact Hl. now apply Hs1.
    + intros [|i] v' p' g' vv' pv' gv' Hv' Hp' Hg' Hvv Hpv Hgv;
        simpl in Hv', Hp', Hg'.
      * injection Hv' as <-. injection Hp' as <-. injection Hg' as <-.
        rewrite Hv in Hvv. rewrite Hp in Hpv. rewrite Hg in Hgv.
        injection Hvv as <-. injection Hpv as <-. injection Hgv as <-.
        rewrite Hframe by exact Hp_ps. simpl.
        apply list_lookup_insert_eq. eapply lookup_lt_Some, Hp.
      * pose proof (list_elem_of_lookup_2 _ _ _ Hv') as Hv_in.
        pose proof (list_elem_of_lookup_2 _ _ _ Hp') as Hp_in.
        pose proof (list_elem_of_lookup_2 _ _ _ Hg') as Hg_in.
        apply (Hval i v' p' g'); auto; rewrite Hs1; auto.
Qed.

Lemma Momentum_body s momentum lr v p g vv pv gv :
  arrays s !! v = Some vv -> arrays s !! p = Some pv ->
  arrays s !! g = Some gv ->
  shape vv = shape gv -> shape pv = shape gv ->
  (vv <- load v ;;
   gv <- load g ;;
   v' <- numpy (broadcast fsub (scale momentum vv) (scale lr gv)) ;;
   pv <- load p ;;
   pv' <- numpy (inplace fadd pv v') ;;
   store p pv') s
  = (Return tt,
     State (<[p := Momentum_param momentum lr vv pv gv]> (arrays s))
       (objects s)).
Proof.
  intros Hv Hp Hg Hvg Hpg. unfold shape in *.
  rewrite (bind_Return _ _ _ _ _ (load_Some _ _ _ Hv)).
  rewrite (bind_Return _ _ _ _ _ (load_Some _ _ _ Hg)).
  rewrite broadcast_same_shape by (unfold scale; now rewrite !length_map).
  unfold numpy at 1. rewrite bind_ret.
  rewrite (bind_Return _ _ _ _ _ (load_Some _ _ _ Hp)).
  rewrite inplace_same_shape.
  - unfold numpy. rewrite bind_ret. apply store_lt.
    eapply lookup_lt_Some, Hp.
  - unfold scale. rewrite length_zip_with, !length_map. lia.
Qed.

Lemma NesterovMomentum_body s momentum lr v p g vv pv gv :
  arrays s !! v = Some vv -> arrays s !! p = Some pv ->
  arrays s !! g = Some gv ->
  shape vv = shape gv -> shape pv = shape gv ->
  (vv <- load v ;;
   gv <- load g ;;
   v' <- numpy (broadcast fsub (scale momentum vv) (scale lr gv)) ;;
   gv <- load g ;;
   d <- numpy (broadcast fsub (scale momentum v') (scale lr gv)) ;;
   pv <- load p ;;
   pv' <- numpy (inplace fadd pv d) ;;
   store p pv') s
  = (Return tt,
     State (<[p := NesterovMomentum_param momentum lr vv pv gv]> (arrays s))
       (objects s)).
Proof.
  intros Hv Hp Hg Hvg Hpg. unfold shape in *.
  rewrite (bind_Return _ _ _ _ _ (load_Some _ _ _ Hv)).
  rewrite (bind_Return _ _ _ _ _ (load_Some _ _ _ Hg)).
  rewrite broadcast_same_shape by (unfold scale; now rewrite !length_map).
  unfold numpy at 1. rewrite bind_ret.
  rewrite (bind_Return _ _ _ _ _ (load_Some _ _ _ Hg)).
  rewrite broadcast_same_shape
    by (unfold scale; rewrite !length_map, length_zip_with, !length_map; lia).
  unfold numpy at 1. rewrite bind_ret.
  rewrite (bind_Return _ _ _ _ _ (load_Some _ _ _ Hp)).
  rewrite inplace_same_shape.
  - unfold numpy. rewrite bind_ret. apply store_lt.
    eapply lookup_lt_Some, Hp.
  - unfold scale.
    rewrite !length_zip_with, !length_map, length_zip_with, !length_map. lia.
Qed.

(** A call on an instance that has its velocity list. *)
Lemma velocity_update_spec s self o params grads :
  objects s !! self = Some o ->
  keeps_velocity o = true -> has_state o = true ->
  NoDup params ->
  (forall v, v ∈ aux_arrays o -> v ∉ params) ->
  separate params grads ->
  tracked s (aux_arrays o) params grads ->
  exists s',
    update self params grads s = (Return tt, s') /\
    objects s' = objects s /\
    length (arrays s') = length (arrays s) /\
    (forall l, l ∉ params -> arrays s' !! l = arrays s !! l) /\
    (forall i v p g vv pv gv,
        aux_arrays o !! i = Some v -> params !! i = Some p ->
        grads !! i = Some g ->
        arrays s !! v = Some vv -> arrays s !! p = Some pv ->
        arrays s !! g = Some gv ->
        arrays s' !! p = Some (velocity_param o vv pv gv)).
Proof.
  intros Ho Hkeeps Hstate Hnd Hvs Hsep Htracked. unfold update.
  rewrite (bind_Return _ _ _ _ _ (get_object_Some _ _ _ Ho)).
  destruct o as [| |m lr c [vs|]|m lr c [vs|]| | | | |];
    try discriminate Hkeeps; try discriminate Hstate; simpl in *.
  - unfold Momentum_update.
    rewrite (bind_Return _ _ _ _ _ (get_object_Some _ _ _ Ho)).
    rewrite bind_ret.
    apply (param_loop _ (Momentum_param m lr)); auto.
    intros. now apply Momentum_body.
  - unfold NesterovMomentum_update.
    rewrite (bind_Return _ _ _ _ _ (get_object_Some _ _ _ Ho)).
    rewrite bind_ret.
    apply (param_loop _ (NesterovMomentum_param m lr)); auto.
    intros. now apply NesterovMomentum_body.
Qed.

(** The store after the first call has created the list [zs] of zero
    arrays and assigned it. *)
Lemma zeros_tracked s params grads news o' :
  allocated s params -> paired s params grads ->
  length news = length params ->
  (forall i x a, params !! i = Some x -> arrays s !! x = Some a ->
                 news !! i = Some (_zero (shape a))) ->
  let s2 := State (arrays s ++ news) o' in
  let zs := seq (length (arrays s)) (length params) in
  (forall v, v ∈ zs -> v ∉ params) /\
  tracked s2 zs params grads /\
  (forall i p g pv gv,
      params !! i = Some p -> grads !! i = Some g ->
      arrays s !! p = Some pv -> arrays s !! g = Some gv ->
      zs !! i = Some (length (arrays s) + i) /\
      arrays s2 !! (length (arrays s) + i) = Some (_zero (shape pv)) /\
      arrays s2 !! p = Some pv /\ arrays s2 !! g = Some gv).
Proof.
  intros Halloc Hpaired Hlen Hnews s2 zs.
  assert (forall i p g pv gv,
      params !! i = Some p -> grads !! i = Some g ->
      arrays s !! p = Some pv -> arrays s !! g = Some gv ->
      zs !! i = Some (length (arrays s) + i) /\
      arrays s2 !! (length (arrays s) + i) = Some (_zero (shape pv)) /\
      arrays s2 !! p = Some pv /\ arrays s2 !! g = Some gv) as Hat.
  { intros i p g pv gv Hp Hg Hpv Hgv. split; [|split; [|split]].
    - apply lookup_seq_lt. eapply lookup_lt_Some, Hp.
    - simpl. rewrite lookup_app_r by lia.
      replace (length (arrays s) + i - length (arrays s)) with i by lia.
      eauto.
    - simpl. now apply lookup_app_l_Some.
    - simpl. now apply lookup_app_l_Some. }
  split; [|split; [|exact Hat]].
  - intros v Hv Hin. apply elem_of_seq in Hv. apply Halloc in Hin. lia.
  - intros i v p g Hv Hp Hg.
    destruct (Hpaired i p g Hp Hg) as (pv & gv & Hpv & Hgv & Hshape).
    destruct (Hat i p g pv gv Hp Hg Hpv Hgv) as (Hz & Hzv & Hp2 & Hg2).
    rewrite Hz in Hv. injection Hv as <-.
    exists (_zero (shape pv)), pv, gv. repeat split; auto.
    unfold _zero, shape in *. now rewrite length_replicate.
Qed.

(** The first call on an instance that keeps a velocity. *)
Lemma velocity_first_update_spec s self o params grads :
  objects s !! self = Some o ->
  keeps_velocity o = true -> initialised o = false ->
  NoDup params -> allocated s params ->
  separate params grads -> paired s params grads ->
  exists s' o',
    update self params grads s = (Return tt, s') /\
    objects s' = <[self := o']> (objects s) /\
    forget_aux o' = forget_aux o /\ has_state o' = true /\
    aux_arrays o' = seq (length (arrays s)) (length params) /\
    (forall l, l < length (arrays s) -> l ∉ params ->
               arrays s' !! l = arrays s !! l) /\
    (forall i p g pv gv,
        params !! i = Some p -> grads !! i = Some g ->
        arrays s !! p = Some pv -> arrays s !! g = Some gv ->
        arrays s' !! (length (arrays s) + i) = Some (_zero (shape pv)) /\
        arrays s' !! p = Some (velocity_param o (_zero (shape pv)) pv gv)).
Proof.
  intros Ho Hkeeps Hinit Hnd Halloc Hsep Hpaired.
  pose proof (lookup_lt_Some _ _ _ Ho) as Hself.
  destruct (zeros_like_spec params s Halloc) as (news & Hz & Hlen & Hnews).
  set (zs := seq (length (arrays s)) (length params)) in *.
  unfold update.
  rewrite (bind_Return _ _ _ _ _ (get_object_Some _ _ _ Ho)).
  destruct o as [| |m lr c [vs|]|m lr c [vs|]| | | | |];
    try discriminate Hkeeps; try discriminate Hinit.
  - set (o' := Momentum m lr c (Some zs)).
    destruct (zeros_tracked s params grads news (<[self := o']> (objects s))
                Halloc Hpaired Hlen Hnews) as (Hfresh & Htracked & Hat).
    fold zs in Hfresh, Htracked, Hat.
    destruct (param_loop
                (fun '(v, (p, g)) =>
                   vv <- load v ;;
                   gv <- load g ;;
                   v' <- numpy (broadcast fsub (scale m vv) (scale lr gv)) ;;
                   pv <- load p ;;
                   pv' <- numpy (inplace fadd pv v') ;;
                   store p pv')
                (Momentum_param m lr)
                (fun s v p g vv pv gv => Momentum_body s m lr v p g vv pv gv)
                zs params grads _ Hnd Hfresh Hsep Htracked)
      as (s' & Hrun & Hobj & _ & Hframe & Hval).
    exists s', o'. split; [|split; [|split; [|split; [|split; [|split]]]]];
      try reflexivity.
    + unfold Momentum_update.
      rewrite (bind_Return _ _ _ _ _ (get_object_Some _ _ _ Ho)).
      rewrite (bind_Return _ _ _ zs
                 (State (arrays s ++ news) (<[self := o']> (objects s)))).
      * exact Hrun.
      * rewrite (bind_Return _ _ _ _ _ Hz). unfold set_object, bind at 1.
        simpl. now rewrite decide_True by exact Hself.
    + exact Hobj.
    + intros l Hl Hparams. rewrite Hframe by exact Hparams.
      simpl. now apply lookup_app_l.
    + intros i p g pv gv Hp Hg Hpv Hgv.
      destruct (Hat i p g pv gv Hp Hg Hpv Hgv) as (Hzi & Hzv & Hp2 & Hg2).
      split.
      * rewrite Hframe; [exact Hzv|].
        apply Hfresh. eapply list_elem_of_lookup_2, Hzi.
      * apply (Hval i _ p g _ pv gv Hzi Hp Hg Hzv Hp2 Hg2).
  - set (o' := NesterovMomentum m lr c (Some zs)).
    destruct (zeros_tracked s params grads news (<[self := o']> (objects s))
                Halloc Hpaired Hlen Hnews) as (Hfresh & Htracked & Hat).
    fold zs in Hfresh, Htracked, Hat.
    destruct (param_loop
                (fun '(v, (p, g)) =>
                   vv <- load v ;;
                   gv <- load g ;;
                   v' <- numpy (broadcast fsub (scale m vv) (scale lr gv)) ;;
                   gv <- load g ;;
                   d <- numpy (broadcast fsub (scale m v') (scale lr gv)) ;;
                   pv <- load p ;;
                   pv' <- numpy (inplace fadd pv d) ;;
                   store p pv')
                (NesterovMomentum_param m lr)
                (fun s v p g vv pv gv =>
                   NesterovMomentum_body s m lr v p g vv pv gv)
                zs params grads _ Hnd Hfresh Hsep Htracked)
      as (s' & Hrun & Hobj & _ & Hframe & Hval).
    exists s', o'. split; [|split; [|split; [|split; [|split; [|split]]]]];
      try reflexivity.
    + unfold NesterovMomentum_update.
      rewrite (bind_Return _ _ _ _ _ (get_object_Some _ _ _ Ho)).
      rewrite (bind_Return _ _ _ zs
                 (State (arrays s ++ news) (<[self := o']> (objects s)))).
      * exact Hrun.
      * rewrite (bind_Return _ _ _ _ _ Hz). unfold set_object, bind at 1.
        simpl. now rewrite decide_True by exact Hself.
    + exact Hobj.
    + intros l Hl Hparams. rewrite Hframe by exact Hparams.
      simpl. now apply lookup_app_l.
    + intros i p g pv gv Hp Hg Hpv Hgv.
      destruct (Hat i p g pv gv Hp Hg Hpv Hgv) as (Hzi & Hzv & Hp2 & Hg2).
      split.
      * rewrite Hframe; [exact Hzv|].
        apply Hfresh. eapply list_elem_of_lookup_2, Hzi.
      * apply (Hval i _ p g _ pv gv Hzi Hp Hg Hzv Hp2 Hg2).
Qed.

End Velocity.

(** With a velocity of zero the step is the gradient times a constant. *)
Lemma velocity_param_at_rest (o : optimizer R) (pv gv : list R) :
  keeps_velocity o = true -> length pv = length gv ->
  velocity_param o (_zero (length pv)) pv gv
  = zip_with Rminus pv (scale (descent_rate o) gv).
Proof.
  intros Hkeeps. destruct o; try discriminate Hkeeps; simpl;
    unfold Momentum_param, NesterovMomentum_param, scale, _zero;
    revert gv; induction pv as [|x pv IH]; intros [|g gv] Hlen;
    try discriminate; try reflexivity; simpl; f_equal;
    try (simpl; lra); apply IH; now injection Hlen.
Qed.

Lemma length_descent (r : R) (pv gv : list R) :
  length pv = length gv ->
  length (zip_with Rminus pv (scale r gv)) = length gv.
Proof.
  intros Hlen. unfold scale. rewrite length_zip_with, length_map. lia.
Qed.

(** While the velocity arrays are zero, [Momentum.update] is a step of
    plain gradient descent, [p - lr * g], and [NesterovMomentum.update] is
    one with the learning rate [(1 + momentum) * lr]; the velocity arrays
    are zero afterwards as before, so the same holds of the next call. *)
Theorem zero_velocity_is_plain_descent (s : state R) self o params grads :
  objects s !! self = Some o ->
  keeps_velocity o = true -> has_state o = true ->
  NoDup params ->
  (forall v, v ∈ aux_arrays o -> v ∉ params) ->
  separate params grads ->
  tracked s (aux_arrays o) params grads ->
  at_rest s (aux_arrays o) params grads ->
  exists s',
    update self params grads s = (Return tt, s') /\
    objects s' = objects s /\
    tracked s' (aux_arrays o) params grads /\
    at_rest s' (aux_arrays o) params grads /\
    forall i v p g pv gv,
      aux_arrays o !! i = Some v -> params !! i = Some p ->
      grads !! i = Some g ->
      arrays s !! p = Some pv -> arrays s !! g = Some gv ->
      arrays s' !! p = Some (zip_with Rminus pv (scale (descent_rate o) gv)).
Proof.
  intros Ho Hkeeps Hstate Hnd Hvs Hsep Htracked Hrest.
  destruct (velocity_update_spec s self o params grads
              Ho Hkeeps Hstate Hnd Hvs Hsep Htracked)
    as (s' & Hrun & Hobj & _ & Hframe & Hval).
  assert (forall i v p g pv gv,
      aux_arrays o !! i = Some v -> params !! i = Some p ->
      grads !! i = Some g ->
      arrays s !! p = Some pv -> arrays s !! g = Some gv ->
      length pv = length gv /\
      arrays s' !! v = Some (_zero (length pv)) /\
      arrays s' !! g = Some gv /\
      arrays s' !! p
      = Some (zip_with Rminus pv (scale (descent_rate o) gv))) as Hstep.
  { intros i v p g pv gv Hv Hp Hg Hpv Hgv.
    destruct (Htracked i v p g Hv Hp Hg)
      as (vv & pv0 & gv0 & Hvv & Hpv0 & Hgv0 & _ & Hshape).
    rewrite Hpv in Hpv0. rewrite Hgv in Hgv0.
    injection Hpv0 as <-. injection Hgv0 as <-. unfold shape in Hshape.
    pose proof (Hrest i v p g pv Hv Hp Hg Hpv) as Hzero.
    split; [exact Hshape|]. split; [|split].
    - rewrite Hframe; [exact Hzero|].
      apply Hvs. eapply list_elem_of_lookup_2, Hv.
    - rewrite Hframe; [exact Hgv|].
      apply Hsep. eapply list_elem_of_lookup_2, Hg.
    - rewrite (Hval i v p g _ pv gv Hv Hp Hg Hzero Hpv Hgv).
      now rewrite velocity_param_at_rest. }
  exists s'. split; [exact Hrun|]. split; [exact Hobj|].
  split; [|split].
  - intros i v p g Hv Hp Hg.
    destruct (Htracked i v p g Hv Hp Hg)
      as (vv & pv & gv & _ & Hpv & Hgv & _ & _).
    destruct (Hstep i v p g pv gv Hv Hp Hg Hpv Hgv)
      as (Hlen & Hv' & Hg' & Hp').
    eexists _, _, gv. split; [exact Hv'|]. split; [exact Hp'|].
    split; [exact Hg'|]. unfold shape, _zero.
    rewrite length_replicate, length_descent by exact Hlen. auto.
  - intros i v p g pv' Hv Hp Hg Hpv'.
    destruct (Htracked i v p g Hv Hp Hg)
      as (vv & pv & gv & _ & Hpv & Hgv & _ & _).
    destruct (Hstep i v p g pv gv Hv Hp Hg Hpv Hgv)
      as (Hlen & Hv' & _ & Hp').
    rewrite Hp' in Hpv'. injection Hpv' as <-.
    unfold shape. rewrite length_descent by exact Hlen.
    now rewrite <- Hlen.
  - intros i v p g pv gv Hv Hp Hg Hpv Hgv.
    apply (Hstep i v p g pv gv Hv Hp Hg Hpv Hgv).
Qed.

(** The first call of [Momentum.update] or [NesterovMomentum.update]
    creates one zero array per parameter, assigns the list to
    [self.velocity], and moves each paired parameter by the gradient times
    the same constant; it leaves the instance as the theorem before needs
    it. *)
Theorem first_update_is_plain_descent (s : state R) self o params grads :
  objects s !! self = Some o ->
  keeps_velocity o = true -> initialised o = false ->
  NoDup params -> allocated s params ->
  separate params grads -> paired s params grads ->
  exists s' o',
    update self params grads s = (Return tt, s') /\
    objects s' !! self = Some o' /\
    forget_aux o' = forget_aux o /\ has_state o' = true /\
    length (aux_arrays o') = length params /\
    (forall v, v ∈ aux_arrays o' -> v ∉ params) /\
    tracked s' (aux_arrays o') params grads /\
    at_rest s' (aux_arrays o') params grads /\
    forall i p g pv gv,
      params !! i = Some p -> grads !! i = Some g ->
      arrays s !! p = Some pv -> arrays s !! g = Some gv ->
      arrays s' !! p = Some (zip_with Rminus pv (scale (descent_rate o) gv)).
Proof.
  intros Ho Hkeeps Hinit Hnd Halloc Hsep Hpaired.
  destruct (velocity_first_update_spec s self o params grads
              Ho Hkeeps Hinit Hnd Halloc Hsep Hpaired)
    as (s' & o' & Hrun & Hobj & Hconfig & Hstate & Haux & Hframe & Hval).
  assert (descent_rate o' = descent_rate o /\
          forall vv pv gv, velocity_param o' vv pv gv
                           = velocity_param o vv pv gv) as [Hrate Hsame].
  { destruct o, o'; try discriminate Hconfig; try discriminate Hkeeps;
      injection Hconfig as -> -> ->; split; reflexivity. }
  assert (forall i p g pv gv,
      params !! i = Some p -> grads !! i = Some g ->
      arrays s !! p = Some pv -> arrays s !! g = Some gv ->
      length pv = length gv /\
      aux_arrays o' !! i = Some (length (arrays s) + i) /\
      arrays s' !! (length (arrays s) + i) = Some (_zero (length pv)) /\
      arrays s' !! g = Some gv /\
      arrays s' !! p
      = Some (zip_with Rminus pv (scale (descent_rate o) gv))) as Hstep.
  { intros i p g pv gv Hp Hg Hpv Hgv.
    destruct (Hpaired i p g Hp Hg) as (pv0 & gv0 & Hpv0 & Hgv0 & Hshape).
    rewrite Hpv in Hpv0. rewrite Hgv in Hgv0.
    injection Hpv0 as <-. injection Hgv0 as <-. unfold shape in Hshape.
    destruct (Hval i p g pv gv Hp Hg Hpv Hgv) as [Hz Hp'].
    split; [exact Hshape|]. split; [|split; [exact Hz|split]].
    - rewrite Haux. apply lookup_seq_lt. eapply lookup_lt_Some, Hp.
    - rewrite Hframe; [exact Hgv|eapply lookup_lt_Some, Hgv|].
      apply Hsep. eapply list_elem_of_lookup_2, Hg.
    - rewrite Hp'. now rewrite velocity_param_at_rest. }
  assert (forall i v, aux_arrays o' !! i = Some v ->
                      v = length (arrays s) + i) as Hseq.
  { intros i v Hv. rewrite Haux in Hv. now apply lookup_seq in Hv as [-> _]. }
  exists s', o'. split; [exact Hrun|]. split.
  { rewrite Hobj. apply list_lookup_insert_eq. eapply lookup_lt_Some, Ho. }
  split; [exact Hconfig|]. split; [exact Hstate|]. split.
  { rewrite Haux. apply length_seq. }
  split.
  { intros v Hv Hin. rewrite Haux in Hv. apply elem_of_seq in Hv.
    apply Halloc in Hin. lia. }
  split; [|split].
  - intros i v p g Hv Hp Hg. apply Hseq in Hv as ->.
    destruct (Hpaired i p g Hp Hg) as (pv & gv & Hpv & Hgv & _).
    destruct (Hstep i p g pv gv Hp Hg Hpv Hgv)
      as (Hlen & _ & Hv' & Hg' & Hp').
    eexists _, _, gv. split; [exact Hv'|]. split; [exact Hp'|].
    split; [exact Hg'|]. unfold shape, _zero.
    rewrite length_replicate, length_descent by exact Hlen. auto.
  - intros i v p g pv' Hv Hp Hg Hpv'. apply Hseq in Hv as ->.
    destruct (Hpaired i p g Hp Hg) as (pv & gv & Hpv & Hgv & _).
    destruct (Hstep i p g pv gv Hp Hg Hpv Hgv)
      as (Hlen & _ & Hv' & _ & Hp').
    rewrite Hp' in Hpv'. injection Hpv' as <-.
    unfold shape. rewrite length_descent by exact Hlen.
    now rewrite <- Hlen.
  - intros i p g pv gv Hp Hg Hpv Hgv.
    apply (Hstep i p g pv gv Hp Hg Hpv Hgv).
Qed.

Lemma zero_velocity_is_plain_descent_witness :
  exists s',
    update 0 [0] [1] Scenario.momentum_stepped_R = (Return tt, s') /\
    arrays s' !! 0 = Some [0.8%R].
Proof.
  destruct (zero_velocity_is_plain_descent Scenario.momentum_stepped_R 0
              (Momentum 0.9 0.1 (-1) (Some [2%nat]))%R [0] [1]
              eq_refl eq_refl eq_refl)
    as (s' & Hrun & _ & _ & _ & Hval).
  - repeat constructor. apply not_elem_of_nil.
  - intros v Hv. apply list_elem_of_singleton in Hv as ->.
    rewrite list_elem_of_singleton. discriminate.
  - intros g Hg. apply list_elem_of_singleton in Hg as ->.
    rewrite list_elem_of_singleton. discriminate.
  - intros [|i] v p g [= <-] [= <-] [= <-].
    exists [0%R], [0.9%R], [1%R]. repeat split.
  - intros [|i] v p g pv [= <-] [= <-] [= <-] [= <-]. reflexivity.
  - exists s'. split; [exact Hrun|].
    rewrite (Hval 0 2 0 1 [0.9%R] [1%R]) by reflexivity.
    simpl. repeat f_equal. lra.
Defined.

Lemma first_update_is_plain_descent_witness :
  exists s',
    update 0 [0] [1] Scenario.nesterov_R = (Return tt, s') /\
    arrays s' !! 0 = Some [0.81%R].
Proof.
  destruct (first_update_is_plain_descent Scenario.nesterov_R 0
              (NesterovMomentum 0.9 0.1 (-1) None)%R [0] [1]
              eq_refl eq_refl eq_refl)
    as (s' & o' & Hrun & _ & _ & _ & _ & _ & _ & _ & Hval).
  - repeat constructor. apply not_elem_of_nil.
  - intros l Hl. apply list_elem_of_singleton in Hl as ->. simpl. lia.
  - intros g Hg. apply list_elem_of_singleton in Hg as ->.
    rewrite list_elem_of_singleton. discriminate.
  - intros [|i] p g [= <-] [= <-].
    exists [1%R], [1%R]. repeat split.
  - exists s'. split; [exact Hrun|].
    rewrite (Hval 0 0 1 [1%R] [1%R]) by reflexivity.
    simpl. repeat f_equal. lra.
Defined.

(** ** The size of an [Adagrad] step *)





(** ** The first call of [Adagrad.update] *)

Section Adagrad_first.

Context {F : Type} `{Scalar F}.
Implicit Types s : state F.


End Adagrad_first.





(** ** Arrays of different shapes *)

Section Shapes.

Context {F : Type} `{Scalar F}.
Implicit Types s : state F.

Lemma for_each_app {A} (xs ys : list A) (body : A -> M F unit) s :
  for_each (xs ++ ys) body s = (for_each xs body ;; for_each ys body) s.
Proof.
  revert s. induction xs as [|x xs IH]; intros s; simpl; [reflexivity|].
  unfold bind. destruct (body x s) as [[[]| |] s1]; [|reflexivity..].
  rewrite IH. reflexivity.
Qed.

Lemma bind_Raise {A B} (m : M F A) (k : A -> M F B) s e s1 :
  m s = (Raise e, s1) -> bind m k s = (Raise e, s1).
Proof. intros Hm. unfold bind. now rewrite Hm. Qed.

Lemma inplace_misshapen op (a b : ndarray F) :
  length b <> length a -> length b <> 1 -> inplace op a b = None.
Proof.
  intros Hne H1. unfold inplace. rewrite decide_False by congruence.
  destruct b as [|y [|z b]]; simpl in *; congruence.
Qed.

Lemma zip_split_at {A B} (xs : list A) (ys : list B) k x y :
  xs !! k = Some x -> ys !! k = Some y ->
  zip xs ys
  = zip (take k xs) (take k ys) ++ (x, y) :: zip (drop (S k) xs) (drop (S k) ys).
Proof.
  intros Hx Hy.
  rewrite <- (take_drop_middle xs k x Hx) at 1.
  rewrite <- (take_drop_middle ys k y Hy) at 1.
  rewrite zip_with_app; [reflexivity|].
  rewrite !length_take_le; [reflexivity| |];
    apply Nat.lt_le_incl; eapply lookup_lt_Some; eauto.
Qed.

(** [SGD.update] is not all or nothing when it fails.  If the [k]-th
    gradient cannot be broadcast to the shape of the [k]-th parameter, the
    call raises [ValueError] after having updated the [k] parameters before
    it; that parameter and everything else are as they were. *)
Theorem SGD_update_stops_at_misshapen_gradient
    s self lr clip params grads k p g pv gv :
  objects s !! self = Some (SGD lr clip) ->
  NoDup params -> separate params grads ->
  params !! k = Some p -> grads !! k = Some g ->
  arrays s !! p = Some pv -> arrays s !! g = Some gv ->
  shape gv <> shape pv -> shape gv <> 1 ->
  paired s (take k params) (take k grads) ->
  exists msg s',
    update self params grads s = (Raise (ValueError msg), s') /\
    objects s' = objects s /\
    (forall l, l ∉ take k params -> arrays s' !! l = arrays s !! l) /\
    (forall i p' g' pv' gv',
        i < k -> params !! i = Some p' -> grads !! i = Some g' ->
        arrays s !! p' = Some pv' -> arrays s !! g' = Some gv' ->
        arrays s' !! p'
        = Some (zip_with fsub pv' (scale lr (npdl_clip gv' clip)))).
Proof.
  intros Ho Hnd Hsep Hp Hg Hpv Hgv Hshape Hone Hpaired.
  assert (NoDup (take k params)) as Hnd_k.
  { eapply sublist_NoDup; [exact Hnd|apply sublist_take]. }
  assert (forall x, x ∈ take k params -> x ∈ params) as Hsub.
  { intros x Hx. apply elem_of_take in Hx as (i & Hi & _).
    eapply list_elem_of_lookup_2, Hi. }
  assert (p ∉ take k params) as Hp_k.
  { intros Hin. apply elem_of_take in Hin as (i & Hi & Hlt).
    pose proof (NoDup_lookup _ _ _ _ Hnd Hi Hp). lia. }
  assert (g ∉ take k params) as Hg_k.
  { intros Hin. apply (Hsep g); [|now apply Hsub].
    eapply list_elem_of_lookup_2, Hg. }
  destruct (SGD_loop lr clip (take k params) (take k grads) s)
    as (s1 & Hrun & Hobj & _ & Hframe & Hval).
  - exact Hnd_k.
  - intros x Hx Hin. apply (Hsep x); [|now apply Hsub].
    apply elem_of_take in Hx as (i & Hi & _).
    eapply list_elem_of_lookup_2, Hi.
  - exact Hpaired.
  - assert (forall l, l ∉ take k params -> arrays s1 !! l = arrays s !! l)
      as Hkeep.
    { intros l Hl. apply Hframe. intros Hin. apply Hl.
      apply elem_of_take in Hin as (i & Hi & _).
      eapply list_elem_of_lookup_2, Hi. }
    exists "operands could not be broadcast together", s1.
    split; [|split; [exact Hobj|split; [exact Hkeep|]]].
    + unfold update.
      rewrite (bind_Return _ _ _ _ _ (get_object_Some _ _ _ Ho)).
      unfold SGD_update.
      rewrite (bind_Return _ _ _ _ _ (get_object_Some _ _ _ Ho)).
      rewrite (zip_split_at params grads k p g Hp Hg), for_each_app.
      rewrite (bind_Return _ _ _ _ _ Hrun). simpl.
      assert (arrays s1 !! g = Some gv) as Hg1 by (rewrite Hkeep; auto).
      assert (arrays s1 !! p = Some pv) as Hp1 by (rewrite Hkeep; auto).
      rewrite (bind_Raise _ _ _
                 (ValueError "operands could not be broadcast together") s1);
        [reflexivity|].
      rewrite (bind_Return _ _ _ _ _ (load_Some _ _ _ Hg1)).
      rewrite (bind_Return _ _ _ _ _ (load_Some _ _ _ Hp1)).
      rewrite inplace_misshapen; [reflexivity| |];
        unfold scale, shape in *; now rewrite length_map, length_npdl_clip.
    + intros i p' g' pv' gv' Hi Hp' Hg' Hpv' Hgv'.
      apply (Hval i p' g'); auto; now rewrite lookup_take_lt.
Qed.

End Shapes.

Lemma SGD_update_stops_at_misshapen_gradient_witness :
  exists msg s',
    update 0 [0; 2] [1; 3] Scenario.sgd_misshapen_R
    = (Raise (ValueError msg), s') /\
    arrays s' !! 0 = Some [0.8%R] /\
    arrays s' !! 2 = Some [1%R; 1%R].
Proof.
  destruct (SGD_update_stops_at_misshapen_gradient Scenario.sgd_misshapen_R 0
              0.1%R (-1)%R [0; 2] [1; 3] 1 2 3 [1; 1]%R [2; 2; 2]%R eq_refl)
    as (msg & s' & Hrun & _ & Hframe & Hval); try reflexivity.
  - repeat constructor; rewrite ?elem_of_cons, ?elem_of_nil; lia.
  - intros g Hg. rewrite !elem_of_cons, elem_of_nil in *. lia.
  - discriminate.
  - discriminate.
  - intros [|i] p g [= <-] [= <-]. exists [1%R], [2%R]. repeat split.
  - exists msg, s'. split; [exact Hrun|]. split.
    + rewrite (Hval 0 0 1 [1%R] [2%R]) by (reflexivity || lia).
      f_equal. run_R. decide_R. close_R.
    + rewrite Hframe; [reflexivity|]. simpl.
      rewrite list_elem_of_singleton. discriminate.
Defined.

(** ** A gradient of zero *)

Lemma SGD_step_at_zero (lr clip : R) (pv gv : list R) :
  length pv = length gv -> Forall (eq 0%R) gv ->
  zip_with Rminus pv (scale lr (npdl_clip gv clip)) = pv.
Proof.
  intros Hlen Hzero.
  assert (npdl_clip gv clip = gv) as ->.
  { unfold npdl_clip, np_clip. simpl.
    destruct (bool_decide (0 < clip)%R) eqn:Hclip; [|reflexivity].
    apply bool_decide_eq_true in Hclip. clear Hlen.
    induction Hzero as [|x gv <- _ IH]; simpl; [reflexivity|].
    f_equal; [|exact IH].
    unfold Rmin, Rmax. repeat destruct Rle_dec; lra. }
  revert pv Hlen. unfold scale.
  induction Hzero as [|x gv <- _ IH]; intros [|y pv] Hlen;
    try discriminate; simpl; [reflexivity|].
  f_equal; [simpl; lra|apply IH; now injection Hlen].
Qed.

(** With every gradient entry zero, [SGD.update] returns and the store is
    what it was: no parameter moves, whatever [lr] and [clip] are. *)
Theorem SGD_update_at_zero_gradient (s : state R) self lr clip params grads :
  objects s !! self = Some (SGD lr clip) ->
  NoDup params -> separate params grads -> paired s params grads ->
  (forall i p g gv,
      params !! i = Some p -> grads !! i = Some g ->
      arrays s !! g = Some gv -> Forall (eq 0%R) gv) ->
  update self params grads s = (Return tt, s).
Proof.
  intros Ho Hnd Hsep Hpaired Hzero.
  destruct (SGD_update_spec s self lr clip params grads Ho Hnd Hsep Hpaired)
    as (s' & Hrun & Hobj & _ & Hframe & Hval).
  rewrite Hrun. f_equal. destruct s as [arr objs], s' as [arr' objs'].
  simpl in *. f_equal; [|exact Hobj].
  apply list_eq. intros l.
  destruct (decide (l ∈ take (length grads) params)) as [Hin|Hout];
    [|now apply Hframe].
  apply elem_of_take in Hin as (i & Hp & Hlt).
  destruct (lookup_lt_is_Some_2 grads i Hlt) as [g Hg].
  destruct (Hpaired i l g Hp Hg) as (pv & gv & Hpv & Hgv & Hshape).
  simpl in *. rewrite (Hval i l g pv gv Hp Hg Hpv Hgv), Hpv.
  f_equal. apply SGD_step_at_zero; [exact Hshape|].
  now apply (Hzero i l g gv).
Qed.

Lemma SGD_update_at_zero_gradient_witness :
  update 0 [0] [1] (State [[1]; [0]]%R [SGD 0.1 0.5]%R)
  = (Return tt, State [[1]; [0]]%R [SGD 0.1 0.5]%R).
Proof.
  apply (SGD_update_at_zero_gradient (State [[1]; [0]]%R [SGD 0.1 0.5]%R) 0
           0.1%R 0.5%R [0] [1] eq_refl).
  - repeat constructor. apply not_elem_of_nil.
  - intros g Hg. apply list_elem_of_singleton in Hg as ->.
    rewrite list_elem_of_singleton. discriminate.
  - intros [|i] p g [= <-] [= <-]. exists [1%R], [0%R]. repeat split.
  - intros [|i] p g gv [= <-] [= <-] [= <-]. repeat constructor.
Defined.
